(** * webtmux session core: transports, auth-token store, origin check

    A shallow embedding of the Go sources

      - server/wt_wrapper.go   (length-prefixed WebTransport framing)
      - server/ws_wrapper.go   (WebSocket text-message transport)
      - server/auth_token.go   (auth-token store, client IP extraction)
      - server/wt_server.go    (WebTransport origin check)
      - sameOrigin             (same-origin fallback check)

    Go [int] values are modelled as [Z], byte slices as [list byte],
    Go strings (byte sequences) as [string], maps as [gmap].  Mutexes
    are not modelled: every function is given its sequential meaning. *)

From Stdlib Require Import ZArith List Lia Bool String Ascii.
From Stdlib.Strings Require Import Byte.
From stdpp Require Import base option list gmap strings.

Import ListNotations.
Local Open Scope Z_scope.

(** ** Errors shared by the transports *)

Inductive error : Type :=
  | EOF                                   (* io.EOF *)
  | ErrUnexpectedEOF                      (* io.ErrUnexpectedEOF *)
  | ErrShortBuffer                        (* io.ErrShortBuffer *)
  | ErrStreamClosed                       (* the peer went away while writing *)
  | ErrMessageTooLarge                    (* "message too large for WebTransport frame (max 65535 bytes)" *)
  | ErrSizeExceedsBuffer (size buf : Z)   (* "message size %d exceeds buffer size %d" *)
  | ErrClientMessageExceeded              (* "client message exceeded buffer size" *)
  | ErrConn (code : Z)                    (* an error of the WebSocket connection *)
  | Wrap (e : error) (msg : string).      (* errors.Wrap(e, msg) *)

(** [len p] is Go's [len(p)], an [int]. *)
Definition len {A : Type} (p : list A) : Z := Z.of_nat (List.length p).

(** [copy(dst, src)] when [len(src) <= len(dst)]: the front of [dst] is
    overwritten, its tail is kept. *)
Definition copy_into (dst src : list byte) : list byte :=
  firstn (List.length dst) src ++ skipn (List.length src) dst.

(** ** encoding/binary, big endian, 16 bits *)

Module BigEndian.

(** Go's conversion [byte(v)]: the low eight bits. *)
Definition byte_of_Z (v : Z) : byte :=
  match Byte.of_N (Z.to_N (v mod 256)) with
  | Some b => b
  | None => x00
  end.

Definition Z_of_byte (b : byte) : Z := Z.of_N (Byte.to_N b).

(** Go's conversion [uint16(n)]. *)
Definition uint16 (n : Z) : Z := n mod 65536.

(** [PutUint16(b, v)]: [b[0] = byte(v >> 8); b[1] = byte(v)]. *)
Definition PutUint16 (v : Z) : list byte :=
  [byte_of_Z (Z.shiftr v 8); byte_of_Z v].

(** [Uint16(b)]: [uint16(b[1]) | uint16(b[0])<<8]; a slice shorter than
    two bytes makes Go panic, modelled as [None]. *)
Definition Uint16 (b : list byte) : option Z :=
  match b with
  | b0 :: b1 :: _ => Some (Z.lor (Z_of_byte b1) (Z.shiftl (Z_of_byte b0) 8))
  | _ => None
  end.

End BigEndian.

(** ** The QUIC stream under the WebTransport transport

    A bidirectional byte stream.  [incoming] holds the bytes the peer has
    sent and that were not read yet, [outgoing] the bytes written so far.
    One [Read] call hands over at most [S chunk] bytes (QUIC delivers a
    stream in pieces), and reports [EOF] once [incoming] is used up.  When
    [wlimit] is [Some k] the write side breaks after [k] more bytes. *)

Record Stream : Type := mkStream {
  incoming : list byte;
  outgoing : list byte;
  chunk : nat;
  wlimit : option nat
}.

Module Stream.

Definition set_incoming (s : Stream) (l : list byte) : Stream :=
  mkStream l (outgoing s) (chunk s) (wlimit s).

(** [stream.Read(buf)] with [len(buf) = k]: the bytes placed at the
    front of [buf], and the error. *)
Definition Read (s : Stream) (k : nat) : Stream * list byte * option error :=
  match k, incoming s with
  | O, _ => (s, [], None)
  | _, [] => (s, [], Some EOF)
  | _, _ =>
      let n := Nat.min k (Nat.min (S (chunk s)) (List.length (incoming s))) in
      (set_incoming s (skipn n (incoming s)), firstn n (incoming s), None)
  end.

(** [stream.Write(p)]: everything is written, or as much as the write
    side still takes, with an error. *)
Definition Write (s : Stream) (p : list byte) : Stream * Z * option error :=
  match wlimit s with
  | None =>
      (mkStream (incoming s) (outgoing s ++ p) (chunk s) None, len p, None)
  | Some k =>
      if (List.length p <=? k)%nat
      then (mkStream (incoming s) (outgoing s ++ p) (chunk s)
                     (Some (k - List.length p)%nat), len p, None)
      else (mkStream (incoming s) (outgoing s ++ firstn k p) (chunk s) (Some O),
            Z.of_nat k, Some ErrStreamClosed)
  end.

End Stream.

(** The write side of [s] still takes [k] bytes. *)
Definition takes (s : Stream) (k : nat) : Prop :=
  match wlimit s with
  | None => True
  | Some m => (k <= m)%nat
  end.

(** ** package io: ReadAtLeast and ReadFull *)

Module io.

(** The loop of [io.ReadAtLeast]:
    [for n < min && err == nil { nn, err = r.Read(buf[n:]); n += nn }].
    [acc] is [buf[:n]]; [blen] is [len(buf)].  The loop is driven by
    [fuel]; [None] means the fuel ran out. *)
Fixpoint readLoop (fuel : nat) (s : Stream) (acc : list byte) (blen min : nat)
  : option (Stream * list byte * option error) :=
  if (List.length acc <? min)%nat then
    match fuel with
    | O => None
    | S fuel' =>
        let '(s', d, e) := Stream.Read s (blen - List.length acc)%nat in
        match e with
        | None => readLoop fuel' s' (acc ++ d) blen min
        | Some err => Some (s', acc ++ d, Some err)
        end
    end
  else Some (s, acc, None).

Definition ReadAtLeast (s : Stream) (blen min : nat)
  : option (Stream * list byte * option error) :=
  if (blen <? min)%nat then Some (s, [], Some ErrShortBuffer)
  else
    match readLoop min s [] blen min with
    | None => None
    | Some (s', acc, e) =>
        if (min <=? List.length acc)%nat then Some (s', acc, None)
        else
          match acc, e with
          | _ :: _, Some EOF => Some (s', acc, Some ErrUnexpectedEOF)
          | _, _ => Some (s', acc, e)
          end
    end.

(** [io.ReadFull(r, buf)] is [ReadAtLeast(r, buf, len(buf))]; the bytes
    returned are the new front of [buf], their number is [n]. *)
Definition ReadFull (s : Stream) (blen : nat)
  : option (Stream * list byte * option error) :=
  ReadAtLeast s blen blen.

End io.

(** ** server/wt_wrapper.go *)

Module wtTransport.

Import BigEndian.

(** [Write]: the transport is its stream (the session plays no part in
    reading and writing).  The result is the stream afterwards with
    [(n, err)]. *)
Definition Write (wtt : Stream) (p : list byte) : Stream * Z * option error :=
  if 65535 <? len p then (wtt, 0, Some ErrMessageTooLarge)
  else
    let header := PutUint16 (uint16 (len p)) in
    let '(s1, _, e1) := Stream.Write wtt header in
    match e1 with
    | Some e => (s1, 0, Some (Wrap e "failed to write frame header"))
    | None =>
        let '(s2, written, e2) := Stream.Write s1 p in
        match e2 with
        | Some e => (s2, written, Some (Wrap e "failed to write frame payload"))
        | None => (s2, written, None)
        end
    end.

(** [Read(p)]: the stream afterwards, the buffer [p] afterwards, and
    [(n, err)].  [None] only if a read loop ran out of fuel. *)
Definition Read (wtt : Stream) (p : list byte)
  : option (Stream * list byte * Z * option error) :=
  match io.ReadFull wtt 2 with
  | None => None
  | Some (s1, header, Some e) => Some (s1, p, 0, Some e)
  | Some (s1, header, None) =>
      match Uint16 header with
      | None => None
      | Some length =>
          if len p <? length
          then Some (s1, p, 0, Some (ErrSizeExceedsBuffer length (len p)))
          else
            match io.ReadFull s1 (Z.to_nat length) with
            | None => None
            | Some (s2, data, e) => Some (s2, data ++ skipn (List.length data) p, len data, e)
            end
      end
  end.

End wtTransport.

(** ** server/ws_wrapper.go *)

Module websocket.

Definition TextMessage : Z := 1.
Definition BinaryMessage : Z := 2.

(** What one call of [Conn.NextReader] yields: a data message of some
    type, whose body [io.ReadAll] reads as [data] (or fails on with
    [rerr]), or an error of the connection. *)
Inductive event : Type :=
  | Message (msgType : Z) (data : list byte) (rerr : option error)
  | Failure (e : error).

(** The connection is the sequence of events still to come. *)
Definition Conn : Type := list event.

End websocket.

Module wsTransport.

Import websocket.

(** [copy(p, b)] and the number of bytes copied. *)
Definition copy (p b : list byte) : list byte * Z :=
  (copy_into p b, Z.min (len p) (len b)).

(** [Read(p)]: the connection afterwards, the buffer afterwards and
    [(n, err)].  The [for] loop follows the pending events; on an
    empty connection [NextReader] blocks and nothing is returned
    ([None]).  A connection error is sticky: it stays at the head. *)
Fixpoint Read (wst : Conn) (p : list byte)
  : option (Conn * list byte * Z * option error) :=
  match wst with
  | [] => None
  | Failure e :: _ => Some (wst, p, 0, Some e)
  | Message msgType b rerr :: rest =>
      if negb (msgType =? TextMessage) then Read rest p
      else
        match rerr with
        | Some e => Some (rest, p, 0, Some e)
        | None =>
            if len p <? len b
            then Some (rest, p, 0, Some ErrClientMessageExceeded)
            else let '(p', n) := copy p b in Some (rest, p', n, None)
        end
  end.

(** An event that [Read] passes over: a data message that is not a
    text message. *)
Definition nonText (ev : event) : Prop :=
  match ev with
  | Message msgType _ _ => msgType <> TextMessage
  | Failure _ => False
  end.

End wsTransport.

(** ** Go library functions the sources call

    Strings are byte sequences.  The models below follow the Go
    standard library on ASCII text; what they leave out is said at each
    function. *)

Module strings.

Definition len (s : string) : nat := String.length s.

(** [s[i:j]] *)
Definition slice (s : string) (i j : nat) : string := substring i (j - i) s.

(** [s[i:]] *)
Definition from (s : string) (i : nat) : string := substring i (len s - i) s.

(** [strings.IndexByte(s, c)]; [None] is Go's [-1]. *)
Fixpoint IndexByte (s : string) (c : ascii) : option nat :=
  match s with
  | EmptyString => None
  | String a s' =>
      if Ascii.eqb a c then Some O
      else match IndexByte s' c with
           | Some i => Some (S i)
           | None => None
           end
  end.

(** [strings.LastIndexByte(s, c)] *)
Fixpoint LastIndexByte (s : string) (c : ascii) : option nat :=
  match s with
  | EmptyString => None
  | String a s' =>
      match LastIndexByte s' c with
      | Some i => Some (S i)
      | None => if Ascii.eqb a c then Some O else None
      end
  end.

(** Go's test [i >= 0] on the result of an index search. *)
Definition found (i : option nat) : bool :=
  match i with
  | Some _ => true
  | None => false
  end.

Fixpoint HasPrefix (s p : string) {struct p} : bool :=
  match p, s with
  | EmptyString, _ => true
  | String b p', String a s' => Ascii.eqb a b && HasPrefix s' p'
  | String _ _, EmptyString => false
  end.

Definition HasSuffix (s p : string) : bool :=
  (len p <=? len s)%nat && String.eqb (from s (len s - len p)) p.

(** [strings.Split(s, sep)] for a separator of one byte. *)
Fixpoint Split (s : string) (sep : ascii) : list string :=
  match s with
  | EmptyString => [EmptyString]
  | String a s' =>
      if Ascii.eqb a sep then EmptyString :: Split s' sep
      else match Split s' sep with
           | x :: xs => String a x :: xs
           | [] => [String a EmptyString]
           end
  end.

(** The ASCII white space of [strings.TrimSpace]: tab, line feed,
    vertical tab, form feed, carriage return and space.  The spaces of
    Unicode beyond ASCII are left out. *)
Definition isSpace (c : ascii) : bool :=
  let n := nat_of_ascii c in
  ((9 <=? n) && (n <=? 13))%nat || (n =? 32)%nat.

Fixpoint TrimLeftSpace (s : string) : string :=
  match s with
  | EmptyString => EmptyString
  | String a s' => if isSpace a then TrimLeftSpace s' else s
  end.

Fixpoint TrimRightSpace (s : string) : string :=
  match s with
  | EmptyString => EmptyString
  | String a s' =>
      match TrimRightSpace s' with
      | EmptyString => if isSpace a then EmptyString else String a EmptyString
      | t => String a t
      end
  end.

Definition TrimSpace (s : string) : string := TrimRightSpace (TrimLeftSpace s).

Definition toLower (c : ascii) : ascii :=
  let n := nat_of_ascii c in
  if ((65 <=? n) && (n <=? 90))%nat then ascii_of_nat (n + 32) else c.

Fixpoint ToLower (s : string) : string :=
  match s with
  | EmptyString => EmptyString
  | String a s' => String (toLower a) (ToLower s')
  end.

(** [strings.EqualFold] on ASCII letters; the case folding of Unicode
    beyond ASCII is left out. *)
Fixpoint EqualFold (s t : string) : bool :=
  match s, t with
  | EmptyString, EmptyString => true
  | String a s', String b t' => Ascii.eqb (toLower a) (toLower b) && EqualFold s' t'
  | _, _ => false
  end.

(** The byte [c] does not occur in [s]. *)
Definition free (c : ascii) (s : string) : Prop := IndexByte s c = None.

End strings.

Module net.

Import strings.

(** [net.SplitHostPort(hostport)]; [None] stands for each of its
    errors (missing port, too many colons, misplaced brackets). *)
Definition SplitHostPort (hostport : string) : option (string * string) :=
  match LastIndexByte hostport ":" with
  | None => None
  | Some i =>
      let checked (host : string) (j k : nat) : option (string * string) :=
        if found (IndexByte (from hostport j) "[") then None
        else if found (IndexByte (from hostport k) "]") then None
        else Some (host, from hostport (i + 1)) in
      if HasPrefix hostport "[" then
        match IndexByte hostport "]" with
        | None => None
        | Some end_ =>
            if (end_ + 1 =? len hostport)%nat then None
            else if (end_ + 1 =? i)%nat then checked (slice hostport 1 end_) 1%nat (end_ + 1)%nat
            else None
        end
      else
        let host := slice hostport 0 i in
        if found (IndexByte host ":") then None
        else checked host 0%nat 0%nat
  end.

End net.

Module url.

Import strings.

(** Of [url.URL] the scheme and the authority's host (with its port)
    are kept; [sameOrigin] reads nothing else. *)
Record URL : Type := mkURL {
  Scheme : string;
  Host : string
}.

Definition isDigit (c : ascii) : bool :=
  let n := nat_of_ascii c in ((48 <=? n) && (n <=? 57))%nat.

Definition isLetter (c : ascii) : bool :=
  let n := nat_of_ascii c in
  (((97 <=? n) && (n <=? 122)) || ((65 <=? n) && (n <=? 90)))%nat.

Fixpoint allDigits (s : string) : bool :=
  match s with
  | EmptyString => true
  | String a s' => isDigit a && allDigits s'
  end.

(** [validOptionalPort]: empty, or a colon followed by digits only. *)
Definition validOptionalPort (port : string) : bool :=
  match port with
  | EmptyString => true
  | String a rest => Ascii.eqb a ":" && allDigits rest
  end.

(** [splitHostPort] of net/url, behind [Hostname] and [Port]. *)
Definition splitHostPort (hostPort : string) : string * string :=
  let '(host, port) :=
    match LastIndexByte hostPort ":" with
    | Some colon =>
        if validOptionalPort (from hostPort colon)
        then (slice hostPort 0 colon, from hostPort (colon + 1))
        else (hostPort, EmptyString)
    | None => (hostPort, EmptyString)
    end in
  if HasPrefix host "[" && HasSuffix host "]"
  then (slice host 1 (len host - 1), port)
  else (host, port).

Definition Hostname (u : URL) : string := fst (splitHostPort (Host u)).
Definition Port (u : URL) : string := snd (splitHostPort (Host u)).

(** [getScheme]: [Some (scheme, rest)], or [None] for "missing protocol
    scheme".  [i] counts the bytes already accepted. *)
Fixpoint getSchemeFrom (rawURL s : string) (i : nat) : option (string * string) :=
  match s with
  | EmptyString => Some (EmptyString, rawURL)
  | String c s' =>
      if isLetter c then getSchemeFrom rawURL s' (S i)
      else if isDigit c || Ascii.eqb c "+" || Ascii.eqb c "-" || Ascii.eqb c "."
      then match i with
           | O => Some (EmptyString, rawURL)
           | _ => getSchemeFrom rawURL s' (S i)
           end
      else if Ascii.eqb c ":"
      then match i with
           | O => None
           | _ => Some (slice rawURL 0 i, s')
           end
      else Some (EmptyString, rawURL)
  end.

Definition getScheme (rawURL : string) : option (string * string) :=
  getSchemeFrom rawURL rawURL 0.

(** [strings.Cut(s, sep)], the part before the first [sep]. *)
Definition cutBefore (s : string) (sep : ascii) : string :=
  match IndexByte s sep with
  | Some i => slice s 0 i
  | None => s
  end.

Fixpoint containsCTLByte (s : string) : bool :=
  match s with
  | EmptyString => false
  | String c s' =>
      let n := nat_of_ascii c in
      (n <? 32)%nat || (n =? 127)%nat || containsCTLByte s'
  end.

(** [parseHost]: the port after the host must be a valid optional port.
    Percent escapes and the check of the host's characters are left
    out. *)
Definition parseHost (host : string) : option string :=
  if HasPrefix host "[" then
    match LastIndexByte host "]" with
    | None => None
    | Some i => if validOptionalPort (from host (i + 1)) then Some host else None
    end
  else
    match LastIndexByte host ":" with
    | Some i => if validOptionalPort (from host i) then Some host else None
    | None => Some host
    end.

(** [parseAuthority]: the host follows the last [@]; the user
    information before it is not checked. *)
Definition parseAuthority (authority : string) : option string :=
  match LastIndexByte authority "@" with
  | None => parseHost authority
  | Some i => parseHost (from authority (i + 1))
  end.

(** [url.Parse(rawURL)]; [None] stands for each of its errors.  The
    fragment and the query are cut off, the scheme is split off and
    lowered, a rootless rest after a scheme is opaque (no host), a
    relative reference may not have a colon in its first segment, and a
    rest starting with two slashes carries the authority up to the next
    slash.  Escapes in the path are not checked. *)
Definition Parse (rawURL : string) : option URL :=
  let u := cutBefore rawURL "#" in
  if containsCTLByte u then None
  else if String.eqb u "*" then Some (mkURL EmptyString EmptyString)
  else
    match getScheme u with
    | None => None
    | Some (scheme0, rest0) =>
        let scheme := ToLower scheme0 in
        let rest := cutBefore rest0 "?" in
        if negb (HasPrefix rest "/") && negb (String.eqb scheme EmptyString)
        then Some (mkURL scheme EmptyString)
        else if negb (HasPrefix rest "/")
                && found (IndexByte (cutBefore rest "/") ":")
        then None
        else if (negb (String.eqb scheme EmptyString) || negb (HasPrefix rest "///"))
                && HasPrefix rest "//"
        then
          let authority := cutBefore (from rest 2) "/" in
          match parseAuthority authority with
          | None => None
          | Some host => Some (mkURL scheme host)
          end
        else Some (mkURL scheme EmptyString)
    end.

End url.

Module http.

(** Of [http.Request]: the header (keys in canonical form), [Host],
    [RemoteAddr], and whether the connection is over TLS ([r.TLS != nil],
    the scheme being https then and http otherwise). *)
Record Request : Type := mkRequest {
  Header : gmap string (list string);
  Host : string;
  RemoteAddr : string;
  TLS : bool
}.

(** [Header.Get(key)]: the first value under [key], or the empty
    string. *)
Definition Get (h : gmap string (list string)) (key : string) : string :=
  match h !! key with
  | Some (v :: _) => v
  | _ => EmptyString
  end.

End http.

(** ** pkg/randomstring *)

Module randomstring.

Definition alphabet : list ascii :=
  list_ascii_of_string "0123456789abcdefghijklmnopqrstuvwxyz".

(** Modelled from the spec: [randomstring.Generate] is not among the
    sources.  The spec says of it: "Tokens are 32 printable ASCII
    characters".  The entropy of one call is a function [rnd] giving the
    random number drawn for each position; position [i] becomes the
    digit [rnd i mod 36] in base 36. *)
Definition Generate (rnd : nat -> nat) (length : nat) : string :=
  string_of_list_ascii
    (List.map (fun i => nth (rnd i mod 36)%nat alphabet "0"%char) (seq 0 length)).

End randomstring.

(** ** server/auth_token.go: the token store *)

Module auth_token.

Definition authTokenLength : nat := 32.

(** Durations and instants are counted in nanoseconds, as [time.Duration]
    does. *)
Definition Hour : Z := 3600 * 1000000000.
Definition authTokenTTL : Z := 1 * Hour.

Record authTokenInfo : Type := mkInfo {
  expiresAt : Z;
  ip : string
}.

Record authTokenStore : Type := mkStore {
  tokens : gmap string authTokenInfo;
  ttl : Z
}.

(** [t.After(u)] *)
Definition After (t u : Z) : bool := u <? t.

Definition newAuthTokenStore (ttl : Z) : authTokenStore :=
  mkStore ∅ ttl.

(** [pruneLocked]: the [range] loop deletes every entry with
    [now.After(info.expiresAt)]; what is left are the others. *)
Definition pruneLocked (store : authTokenStore) (now : Z) : authTokenStore :=
  mkStore (filter (fun kv => After now (expiresAt kv.2) = false) (tokens store))
          (ttl store).

(** The [for] loop of [issue]: one element of [rand] is the entropy of
    one [randomstring.Generate] call.  [None]: every draw at hand
    collided. *)
Fixpoint issueLoop (toks : gmap string authTokenInfo) (info : authTokenInfo)
    (rand : list (nat -> nat))
  : option (string * gmap string authTokenInfo * list (nat -> nat)) :=
  match rand with
  | [] => None
  | rnd :: rand' =>
      let token := randomstring.Generate rnd authTokenLength in
      match toks !! token with
      | Some _ => issueLoop toks info rand'
      | None => Some (token, <[token := info]> toks, rand')
      end
  end.

(** [issue(ip)] at time [now] ([time.Now()]). *)
Definition issue (store : authTokenStore) (now : Z) (ip : string)
    (rand : list (nat -> nat))
  : option (string * authTokenStore * list (nat -> nat)) :=
  let store1 := pruneLocked store now in
  match issueLoop (tokens store1) (mkInfo (now + ttl store1) ip) rand with
  | None => None
  | Some (token, toks, rand') => Some (token, mkStore toks (ttl store1), rand')
  end.

(** [validate(token, ip)] at time [now]: the answer and the store
    afterwards. *)
Definition validate (store : authTokenStore) (now : Z) (token ip : string)
  : bool * authTokenStore :=
  if decide (token = "") then (false, store)
  else
    let store1 := pruneLocked store now in
    match tokens store1 !! token with
    | None => (false, store1)
    | Some info =>
        if After now (expiresAt info)
        then (false, mkStore (delete token (tokens store1)) (ttl store1))
        else if bool_decide (auth_token.ip info ≠ "") && bool_decide (ip ≠ "")
                && bool_decide (auth_token.ip info ≠ ip)
        then (false, store1)
        else (true, store1)
    end.

(** [ipFromAddr] *)
Definition ipFromAddr (addr : string) : string :=
  if decide (addr = "") then ""
  else
    match net.SplitHostPort addr with
    | Some (host, _) => host
    | None => strings.TrimSpace addr
    end.

(** [clientIPFromRequest]; [None] is the nil request. *)
Definition clientIPFromRequest (r : option http.Request) : string :=
  match r with
  | None => ""
  | Some r =>
      let forwarded := http.Get (http.Header r) "X-Forwarded-For" in
      if decide (forwarded ≠ "")
      then strings.TrimSpace (hd "" (strings.Split forwarded ","))
      else ipFromAddr (http.RemoteAddr r)
  end.

(** Of [Options], the fields read here and by the origin checks. *)
Record Options : Type := mkOptions {
  EnableBasicAuth : bool;
  AuthIPBinding : bool;
  WSOrigin : string
}.

(** Of [Server]: its options and its token store ([None] is nil). *)
Record Server : Type := mkServer {
  options : Options;
  authTokens : option authTokenStore
}.

(** [issueAuthToken]: the token and the server afterwards; [None] when
    the draws at hand ran out. *)
Definition issueAuthToken (server : Server) (r : option http.Request) (now : Z)
    (rand : list (nat -> nat))
  : option (string * Server * list (nat -> nat)) :=
  match negb (EnableBasicAuth (options server)), authTokens server with
  | false, Some store =>
      let ip := if negb (AuthIPBinding (options server)) then ""
                else clientIPFromRequest r in
      match issue store now ip rand with
      | None => None
      | Some (token, store', rand') =>
          Some (token, mkServer (options server) (Some store'), rand')
      end
  | _, _ => Some ("", server, rand)
  end.

(** [validateAuthToken]: the answer and the server afterwards. *)
Definition validateAuthToken (server : Server) (now : Z) (token ip : string)
  : bool * Server :=
  if negb (EnableBasicAuth (options server)) then (true, server)
  else
    match authTokens server with
    | None => (false, server)
    | Some store =>
        let '(ok, store') :=
          if negb (AuthIPBinding (options server))
          then validate store now token ""
          else validate store now token ip in
        (ok, mkServer (options server) (Some store'))
    end.

(** The acceptance condition in the words of the specification: the
    token exists, has not expired, and, if IP binding is enabled, the
    stored IP matches the caller's. *)
Definition validate_as_specified (binding : bool) (store : authTokenStore) (now : Z)
    (token ip : string) : Prop :=
  exists info : authTokenInfo,
    tokens store !! token = Some info /\
    After now (expiresAt info) = false /\
    (binding = true -> auth_token.ip info = ip).

(** The draw of [rnd] collides with a token of [toks]. *)
Definition collides (toks : gmap string authTokenInfo) (rnd : nat -> nat) : Prop :=
  is_Some (toks !! randomstring.Generate rnd authTokenLength).

(** No entry of the store has expired at [now]. *)
Definition noneExpired (store : authTokenStore) (now : Z) : Prop :=
  forall (k : string) (info : authTokenInfo),
    tokens store !! k = Some info -> After now (expiresAt info) = false.

End auth_token.

(** ** sameOrigin *)

Module origin.

(** [sameOrigin(r)] *)
Definition sameOrigin (r : http.Request) : bool :=
  let origin := http.Get (http.Header r) "Origin" in
  if decide (origin = "") then true
  else
    match url.Parse origin with
    | None => false
    | Some originURL =>
        let originHost := url.Hostname originURL in
        let originPort := url.Port originURL in
        let '(reqHost, reqPort) :=
          match net.SplitHostPort (http.Host r) with
          | Some (host, port) => (host, port)
          | None => (http.Host r, "")
          end in
        if negb (strings.EqualFold originHost reqHost) then false
        else if bool_decide (originPort = "") || bool_decide (reqPort = "") then true
        else bool_decide (originPort = reqPort)
    end.

(** The host and the port of the request, as [sameOrigin] takes them
    from [r.Host]. *)
Definition requestHostPort (r : http.Request) : string * string :=
  match net.SplitHostPort (http.Host r) with
  | Some (host, port) => (host, port)
  | None => (http.Host r, "")
  end.

(** The scheme of the request. *)
Definition requestScheme (r : http.Request) : string :=
  if http.TLS r then "https" else "http".

(** The same-origin comparison in the words of the specification:
    scheme, host, and port when both are present. *)
Definition sameOrigin_as_specified (r : http.Request) : Prop :=
  exists originURL : url.URL,
    url.Parse (http.Get (http.Header r) "Origin") = Some originURL /\
    url.Scheme originURL = requestScheme r /\
    strings.EqualFold (url.Hostname originURL) (fst (requestHostPort r)) = true /\
    (url.Port originURL ≠ "" -> snd (requestHostPort r) ≠ "" ->
     url.Port originURL = snd (requestHostPort r)).

End origin.

(** ** server/wt_server.go *)

Module wt_server.

(** A compiled regular expression is the set of strings it matches
    ([MatchString]). *)
Definition Regexp : Type := string -> bool.

Record WebTransportServer : Type := mkWTS {
  options : auth_token.Options;
  pathPrefix : string;
  originRegexp : option Regexp
}.

(** The [CheckOrigin] closure of the [webtransport.Server] that
    [NewWebTransportServer] builds, over its variable [originRegexp]. *)
Definition CheckOrigin (originRegexp : option Regexp) (r : http.Request) : bool :=
  match originRegexp with
  | Some re => re (http.Get (http.Header r) "Origin")
  | None => true
  end.

Section NewWebTransportServer.

(** [regexp.Compile]; [None] is a pattern that does not compile. *)
Variable regexp_Compile : string -> option Regexp.

(** [NewWebTransportServer]: [None] is its error.  The result is the
    server and the origin check it installs. *)
Definition NewWebTransportServer (options : auth_token.Options) (pathPrefix : string)
  : option (WebTransportServer * (http.Request -> bool)) :=
  let compiled : option (option Regexp) :=
    if decide (auth_token.WSOrigin options ≠ "")
    then match regexp_Compile (auth_token.WSOrigin options) with
         | Some re => Some (Some re)
         | None => None
         end
    else Some None in
  match compiled with
  | None => None
  | Some originRegexp =>
      Some (mkWTS options pathPrefix originRegexp, CheckOrigin originRegexp)
  end.

End NewWebTransportServer.

End wt_server.


(** ** Sequences of frames on the WebTransport stream *)

Module wtFrames.

Import BigEndian.

(** The bytes [wtTransport.Write] puts on the stream for the payload
    [P]: header, then payload. *)
Definition frame (P : list byte) : list byte := PutUint16 (uint16 (len P)) ++ P.

(** [Write] called for each message in turn: the stream afterwards and
    the results [(n, err)] of the calls. *)
Fixpoint WriteAll (wtt : Stream) (msgs : list (list byte))
  : Stream * list (Z * option error) :=
  match msgs with
  | [] => (wtt, [])
  | P :: msgs' =>
      let '(s1, n, e) := wtTransport.Write wtt P in
      let '(s2, results) := WriteAll s1 msgs' in
      (s2, (n, e) :: results)
  end.

(** [Read] called [count] times, each time with a buffer of [bufsize]
    bytes of which the caller keeps [p[:n]]; it stops at the first error
    ([None], as when a read loop runs out of fuel). *)
Fixpoint ReadMessages (count : nat) (wtt : Stream) (bufsize : nat)
  : option (Stream * list (list byte)) :=
  match count with
  | O => Some (wtt, [])
  | S count' =>
      match wtTransport.Read wtt (repeat x00 bufsize) with
      | Some (s1, p, n, None) =>
          match ReadMessages count' s1 bufsize with
          | Some (s2, msgs) => Some (s2, firstn (Z.to_nat n) p :: msgs)
          | None => None
          end
      | _ => None
      end
  end.

(** The messages fit the frame format and a buffer of [bufsize] bytes. *)
Definition fit (bufsize : nat) (msgs : list (list byte)) : Prop :=
  Forall (fun P : list byte => len P <= 65535 /\ (List.length P <= bufsize)%nat) msgs.

End wtFrames.

(** ** js/src/webtransport.ts: the client side of the framing *)

Module WebTransportConnection.

Import BigEndian.

(** Of the connection object: [isConnected]; the writer [stream], [None]
    when null, otherwise the bytes written to it so far; [readBuffer];
    whether [receiveCallback] is set; and the messages it was called
    with, in order. *)
Record State (JSString : Type) : Type := mkState {
  isConnected : bool;
  stream : option (list byte);
  readBuffer : list byte;
  receiveCallback : bool;
  received : list JSString
}.

Arguments mkState {JSString}.
Arguments isConnected {JSString}.
Arguments stream {JSString}.
Arguments readBuffer {JSString}.
Arguments receiveCallback {JSString}.
Arguments received {JSString}.

(** The header bytes of [send]:
    [frame[0] = (payload.length >> 8) & 0xff; frame[1] = payload.length & 0xff]. *)
Definition header (length : Z) : list byte :=
  [byte_of_Z (Z.land (Z.shiftr length 8) 255); byte_of_Z (Z.land length 255)].

(** [(readBuffer[0] << 8) | readBuffer[1]] *)
Definition frameLength (b0 b1 : byte) : Z :=
  Z.lor (Z.shiftl (Z_of_byte b0) 8) (Z_of_byte b1).

(** [readBuffer.slice(i, j)] for [0 <= i <= j]. *)
Definition slice (b : list byte) (i j : Z) : list byte :=
  firstn (Z.to_nat j - Z.to_nat i) (skipn (Z.to_nat i) b).

(** The loop "process complete frames" of [startReading]: the payloads
    taken off the buffer, in order, and the buffer left.  [None]: the
    fuel ran out. *)
Fixpoint processFrames (fuel : nat) (readBuffer : list byte)
  : option (list (list byte) * list byte) :=
  match readBuffer with
  | b0 :: b1 :: _ =>
      let length := frameLength b0 b1 in
      if len readBuffer <? 2 + length then Some ([], readBuffer)
      else
        match fuel with
        | O => None
        | S fuel' =>
            let payload := slice readBuffer 2 (2 + length) in
            let readBuffer' := skipn (Z.to_nat (2 + length)) readBuffer in
            match processFrames fuel' readBuffer' with
            | Some (payloads, rest) => Some (payload :: payloads, rest)
            | None => None
            end
        end
  | _ => Some ([], readBuffer)
  end.

Section Codec.

(** JavaScript strings, with [TextEncoder.encode] and
    [TextDecoder.decode]. *)
Variable JSString : Type.
Variable encode : JSString -> list byte.
Variable decode : list byte -> JSString.

(** [send(data)]: nothing happens without a writer or when not
    connected; otherwise the frame is handed to the writer. *)
Definition send (c : State JSString) (data : JSString) : State JSString :=
  match stream c with
  | Some written =>
      if negb (isConnected c) then c
      else
        let payload := encode data in
        let frame := header (len payload) ++ payload in
        mkState (isConnected c) (Some (written ++ frame)) (readBuffer c)
                (receiveCallback c) (received c)
  | None => c
  end.

(** One turn of the reading loop for a chunk [value] that the reader
    returned: the chunk is appended to the buffer, and every complete
    frame is decoded and delivered. *)
Definition receive (c : State JSString) (value : list byte) : option (State JSString) :=
  let newBuffer := readBuffer c ++ value in
  match processFrames (List.length newBuffer) newBuffer with
  | None => None
  | Some (payloads, rest) =>
      Some (mkState (isConnected c) (stream c) rest (receiveCallback c)
              (received c ++ (if receiveCallback c then List.map decode payloads else [])))
  end.

(** [startReading] over the chunks that the reader returns before it
    is done; the loop runs while [isConnected]. *)
Fixpoint startReading (c : State JSString) (chunks : list (list byte))
  : option (State JSString) :=
  match chunks with
  | [] => Some c
  | value :: chunks' =>
      if isConnected c then
        match receive c value with
        | Some c' => startReading c' chunks'
        | None => None
        end
      else Some c
  end.

End Codec.

(** A buffer that does not start with a complete frame: the reading
    loop waits for more data. *)
Definition incomplete (b : list byte) : Prop :=
  match b with
  | b0 :: b1 :: _ => len b < 2 + frameLength b0 b1
  | _ => True
  end.

End WebTransportConnection.

(** ** The shape of a trimmed text *)

Module trimmedText.

Definition firstByte (s : string) : option ascii :=
  match s with
  | EmptyString => None
  | String a _ => Some a
  end.

Fixpoint lastByte (s : string) : option ascii :=
  match s with
  | EmptyString => None
  | String a s' =>
      match lastByte s' with
      | Some b => Some b
      | None => Some a
      end
  end.

(** Neither the first nor the last byte of [s] is ASCII white space. *)
Definition trimmed (s : string) : Prop :=
  (forall a : ascii, firstByte s = Some a -> strings.isSpace a = false) /\
  (forall a : ascii, lastByte s = Some a -> strings.isSpace a = false).

End trimmedText.

(** * Properties *)

(** ** Big-endian header *)

Section BigEndianFacts.

Import BigEndian.

Lemma Z_of_byte_of_Z (v : Z) : Z_of_byte (byte_of_Z v) = v mod 256.
Proof.
  unfold Z_of_byte, byte_of_Z.
  assert (Hr : 0 <= v mod 256 < 256) by (apply Z.mod_pos_bound; lia).
  destruct (Byte.of_N (Z.to_N (v mod 256))) as [b|] eqn:E.
  - apply Byte.to_of_N in E. rewrite E. lia.
  - apply Byte.of_N_None_iff in E. lia.
Qed.

Lemma Z_of_byte_range (b : byte) : 0 <= Z_of_byte b < 256.
Proof.
  unfold Z_of_byte. pose proof (Byte.to_N_bounded b). lia.
Qed.

Lemma Uint16_range (h : list byte) (n : Z) : Uint16 h = Some n -> 0 <= n <= 65535.
Proof.
  destruct h as [|b0 [|b1 t]]; simpl; try discriminate.
  intros [= <-].
  pose proof (Z_of_byte_range b0) as H0. pose proof (Z_of_byte_range b1) as H1.
  rewrite Z.shiftl_mul_pow2 by lia.
  assert (Hlt : Z.lor (Z_of_byte b1) (Z_of_byte b0 * 2 ^ 8) < 2 ^ 16).
  { destruct (Z.eq_dec (Z.lor (Z_of_byte b1) (Z_of_byte b0 * 2 ^ 8)) 0) as [->|Hne]; [lia|].
    assert (Hnn : 0 <= Z.lor (Z_of_byte b1) (Z_of_byte b0 * 2 ^ 8))
      by (apply Z.lor_nonneg; lia).
    apply Z.log2_lt_pow2; [lia|].
    rewrite Z.log2_lor by lia.
    apply Z.max_lub_lt.
    - destruct (Z.eq_dec (Z_of_byte b1) 0) as [->|]; [simpl; lia|].
      apply Z.log2_lt_pow2; lia.
    - destruct (Z.eq_dec (Z_of_byte b0) 0) as [->|]; [simpl; lia|].
      apply Z.log2_lt_pow2; lia. }
  split; [apply Z.lor_nonneg; lia | lia].
Qed.

(** Decoding the header of a length gives the length back. *)
Lemma Uint16_PutUint16 (n : Z) :
  0 <= n <= 65535 -> Uint16 (PutUint16 (uint16 n)) = Some n.
Proof.
  intros Hn. unfold uint16. rewrite Z.mod_small by lia.
  unfold PutUint16, Uint16. f_equal. rewrite !Z_of_byte_of_Z.
  rewrite Z.shiftr_div_pow2 by lia.
  rewrite (Z.mod_small (n / 2 ^ 8)).
  2:{ split; [apply Z.div_pos; lia | apply Z.div_lt_upper_bound; lia]. }
  rewrite Z.shiftl_mul_pow2 by lia.
  change 256 with (2 ^ 8).
  assert (Hland : Z.land (n mod 2 ^ 8) (n / 2 ^ 8 * 2 ^ 8) = 0).
  { apply Z.bits_inj'. intros k Hk. rewrite Z.land_spec, Z.bits_0.
    destruct (Z.ltb_spec k 8).
    - rewrite Z.mul_pow2_bits_low by lia. apply andb_false_r.
    - rewrite Z.mod_pow2_bits_high by lia. reflexivity. }
  rewrite <- Z.lxor_lor, <- Z.add_nocarry_lxor by exact Hland.
  rewrite (Z.div_mod n (2 ^ 8)) at 3 by lia. lia.
Qed.

Lemma PutUint16_length (v : Z) : List.length (PutUint16 v) = 2%nat.
Proof. reflexivity. Qed.

End BigEndianFacts.

(** ** The stream and io.ReadFull *)

Section StreamFacts.

Lemma set_incoming_id (s : Stream) : Stream.set_incoming s (incoming s) = s.
Proof. destruct s; reflexivity. Qed.

Lemma set_incoming_twice (s : Stream) (l l' : list byte) :
  Stream.set_incoming (Stream.set_incoming s l) l' = Stream.set_incoming s l'.
Proof. reflexivity. Qed.

(** One [Read] into a buffer of [k > 0] bytes on a stream that still has
    bytes hands over a non-empty front of them, at most [k] bytes. *)
Lemma Stream_Read_some (s : Stream) (k : nat) (b : byte) (l : list byte) :
  (0 < k)%nat -> incoming s = b :: l ->
  exists n, (0 < n <= k)%nat /\ (n <= List.length (b :: l))%nat /\
    Stream.Read s k =
      (Stream.set_incoming s (skipn n (b :: l)), firstn n (b :: l), None).
Proof.
  intros Hk Hin. unfold Stream.Read. rewrite Hin.
  destruct k as [|k']; [lia|].
  exists (Nat.min (S k') (Nat.min (S (chunk s)) (List.length (b :: l)))).
  simpl List.length. repeat split; lia.
Qed.

(** The loop of [ReadAtLeast] with [min = len(buf)]: when the bytes
    wanted are on the stream, fuel for each of them is enough, and
    exactly those bytes are taken off the stream. *)
Lemma readLoop_full (fuel : nat) :
  forall (s : Stream) (acc d rest : list byte) (n : nat),
    incoming s = d ++ rest ->
    (List.length acc + List.length d = n)%nat ->
    (List.length d <= fuel)%nat ->
    io.readLoop fuel s acc n n = Some (Stream.set_incoming s rest, acc ++ d, None).
Proof.
  induction fuel as [|fuel IH]; intros s acc d rest n Hin Hlen Hfuel.
  - destruct d; [|simpl in Hfuel; lia].
    simpl in *. rewrite Nat.add_0_r in Hlen. subst n.
    rewrite Nat.ltb_irrefl, app_nil_r, <- Hin, set_incoming_id. reflexivity.
  - destruct d as [|b d].
    + simpl in *. rewrite Nat.add_0_r in Hlen. subst n.
      rewrite Nat.ltb_irrefl, app_nil_r, <- Hin, set_incoming_id. reflexivity.
    + cbn [io.readLoop].
      assert (Hlt : (List.length acc <? n)%nat = true)
        by (apply Nat.ltb_lt; simpl in Hlen; lia).
      rewrite Hlt.
      destruct (Stream_Read_some s (n - List.length acc) b (d ++ rest))
        as (m & Hm & Hm' & ->); [simpl in Hlen; lia | exact Hin |].
      assert (Hmd : (m <= List.length (b :: d))%nat) by (simpl in *; lia).
      change (b :: d ++ rest) with ((b :: d) ++ rest).
      rewrite firstn_app, skipn_app.
      replace (m - List.length (b :: d))%nat with 0%nat by lia.
      rewrite firstn_O, skipn_O, app_nil_r.
      rewrite (IH _ (acc ++ firstn m (b :: d)) (skipn m (b :: d)) rest n).
      * rewrite set_incoming_twice, <- app_assoc, firstn_skipn. reflexivity.
      * reflexivity.
      * rewrite length_app, firstn_length_le by exact Hmd.
        rewrite length_skipn. lia.
      * rewrite length_skipn. simpl in *. lia.
Qed.

(** [ReadFull] of [n] bytes that are on the stream returns them and
    leaves the rest. *)
Lemma ReadFull_exact (s : Stream) (d rest : list byte) :
  incoming s = d ++ rest ->
  io.ReadFull s (List.length d) = Some (Stream.set_incoming s rest, d, None).
Proof.
  intros Hin. unfold io.ReadFull, io.ReadAtLeast.
  rewrite Nat.ltb_irrefl.
  rewrite (readLoop_full _ s [] d rest (List.length d) Hin); [|reflexivity|lia].
  simpl. rewrite Nat.leb_refl. reflexivity.
Qed.

End StreamFacts.

(** ** WebTransport framing *)

Section WTFraming.

Import BigEndian.

Lemma Stream_Write_ok (s : Stream) (p : list byte) :
  takes s (List.length p) ->
  exists s', Stream.Write s p = (s', len p, None) /\
    outgoing s' = outgoing s ++ p /\ incoming s' = incoming s /\
    chunk s' = chunk s /\
    forall k, takes s (List.length p + k) -> takes s' k.
Proof.
  unfold takes, Stream.Write. destruct (wlimit s) as [m|] eqn:E.
  - intros Hm. apply Nat.leb_le in Hm as Hm'. rewrite Hm'.
    eexists; repeat split; simpl. intros k Hk. lia.
  - intros _. eexists; repeat split.
Qed.

(** Reading one frame off a stream that starts with its header [h]. *)
Lemma wt_Read_header (s : Stream) (p h body : list byte) :
  List.length h = 2%nat -> incoming s = h ++ body ->
  exists N, Uint16 h = Some N /\ 0 <= N <= 65535 /\
    wtTransport.Read s p =
      if len p <? N
      then Some (Stream.set_incoming s body, p, 0,
                 Some (ErrSizeExceedsBuffer N (len p)))
      else match io.ReadFull (Stream.set_incoming s body) (Z.to_nat N) with
           | None => None
           | Some (s2, data, e) =>
               Some (s2, data ++ skipn (List.length data) p, len data, e)
           end.
Proof.
  intros Hh Hin.
  destruct h as [|b0 [|b1 [|? ?]]]; try discriminate Hh.
  eexists; split; [reflexivity|]. split.
  { apply (Uint16_range [b0; b1]). reflexivity. }
  unfold wtTransport.Read.
  change 2%nat with (List.length [b0; b1]).
  rewrite (ReadFull_exact s [b0; b1] body Hin). reflexivity.
Qed.

(** C1.  Round trip of the WebTransport framing: for a payload [P] of
    at most 65535 bytes on a stream that takes the frame, [Write]
    succeeds with [n = len(P)] and puts the two-byte big-endian length
    followed by [P] on the stream; and [Read], on a stream where those
    bytes arrive, with a buffer of at least [len(P)] bytes, returns
    [len(P)] and no error, with [P] at the front of the buffer, having
    taken exactly the frame off the stream. *)
Theorem wt_Write_Read_roundtrip (wtt : Stream) (P : list byte) :
  len P <= 65535 ->
  takes wtt (2 + List.length P) ->
  exists s',
    wtTransport.Write wtt P = (s', len P, None) /\
    outgoing s' = outgoing wtt ++ PutUint16 (len P) ++ P /\
    forall (rx : Stream) (p rest : list byte),
      incoming rx = PutUint16 (len P) ++ P ++ rest ->
      len P <= len p ->
      wtTransport.Read rx p =
        Some (Stream.set_incoming rx rest, P ++ skipn (List.length P) p, len P, None).
Proof.
  intros Hmax Htakes.
  assert (Hlen : 0 <= len P <= 65535) by (unfold len in *; lia).
  assert (Hu : uint16 (len P) = len P) by (unfold uint16; apply Z.mod_small; lia).
  destruct (Stream_Write_ok wtt (PutUint16 (len P))) as (s1 & Hw1 & Ho1 & _ & _ & Ht1).
  { unfold takes in *. destruct (wlimit wtt); [simpl; lia | exact I]. }
  destruct (Stream_Write_ok s1 P) as (s2 & Hw2 & Ho2 & _ & _ & _).
  { apply Ht1. rewrite PutUint16_length. exact Htakes. }
  exists s2. split; [|split].
  - unfold wtTransport.Write.
    destruct (Z.ltb_spec 65535 (len P)) as [Hgt|_]; [lia|].
    rewrite Hu, Hw1, Hw2. reflexivity.
  - rewrite Ho2, Ho1, <- app_assoc. reflexivity.
  - intros rx p rest Hin Hp.
    destruct (wt_Read_header rx p (PutUint16 (len P)) (P ++ rest))
      as (N & HN & _ & ->); [reflexivity | exact Hin |].
    rewrite <- Hu, Uint16_PutUint16 in HN by exact Hlen.
    injection HN as <-.
    destruct (Z.ltb_spec (len p) (len P)) as [Hlt|_]; [lia|].
    unfold len at 1. rewrite Nat2Z.id.
    rewrite (ReadFull_exact (Stream.set_incoming rx (P ++ rest)) P rest) by reflexivity.
    rewrite set_incoming_twice. reflexivity.
Qed.

(** C4.  A payload of more than 65535 bytes: [Write] returns the error
    "message too large" with [n = 0], and the stream is as it was, so
    neither header nor payload was written. *)
Theorem wt_Write_too_large (wtt : Stream) (P : list byte) :
  65535 < len P ->
  wtTransport.Write wtt P = (wtt, 0, Some ErrMessageTooLarge).
Proof.
  intros Hbig. unfold wtTransport.Write.
  destruct (Z.ltb_spec 65535 (len P)) as [_|Hle]; [reflexivity | lia].
Qed.

(** C5.  A frame arriving on the stream, that is a two-byte header [h]
    followed by [body]: the header decodes to a length [N <= 65535];
    when [N] exceeds the buffer, [Read] returns the error that names
    [N] and the buffer size, with [n = 0], the buffer untouched and only
    the header taken off the stream; otherwise, when the [N] payload
    bytes are there, [Read] puts exactly them into the buffer and takes
    exactly header and payload off the stream. *)
Theorem wt_Read_frame (s : Stream) (p h body : list byte) :
  List.length h = 2%nat ->
  incoming s = h ++ body ->
  exists N,
    Uint16 h = Some N /\ 0 <= N <= 65535 /\
    (len p < N ->
       wtTransport.Read s p =
         Some (Stream.set_incoming s body, p, 0,
               Some (ErrSizeExceedsBuffer N (len p)))) /\
    (forall payload rest : list byte,
       body = payload ++ rest -> len payload = N -> N <= len p ->
       wtTransport.Read s p =
         Some (Stream.set_incoming s rest,
               payload ++ skipn (List.length payload) p, N, None)).
Proof.
  intros Hh Hin.
  destruct (wt_Read_header s p h body Hh Hin) as (N & HN & Hr & HRead).
  exists N. split; [exact HN|]. split; [exact Hr|]. split.
  - intros Hlt. rewrite HRead.
    destruct (Z.ltb_spec (len p) N) as [_|Hge]; [reflexivity | lia].
  - intros payload rest -> HNp Hfit. rewrite HRead.
    destruct (Z.ltb_spec (len p) N) as [Hlt|_]; [lia|].
    rewrite <- HNp. unfold len at 1. rewrite Nat2Z.id.
    rewrite (ReadFull_exact (Stream.set_incoming s (payload ++ rest)) payload rest)
      by reflexivity.
    rewrite set_incoming_twice. reflexivity.
Qed.

Lemma wt_Write_Read_roundtrip_witness :
  exists s',
    wtTransport.Write (mkStream [] [] 0 None) [x68; x69] = (s', 2, None) /\
    outgoing s' = [] ++ [x00; x02] ++ [x68; x69] /\
    forall (rx : Stream) (p rest : list byte),
      incoming rx = [x00; x02] ++ [x68; x69] ++ rest ->
      2 <= len p ->
      wtTransport.Read rx p =
        Some (Stream.set_incoming rx rest, [x68; x69] ++ skipn 2 p, 2, None).
Proof.
  apply (wt_Write_Read_roundtrip (mkStream [] [] 0 None) [x68; x69]).
  - vm_compute. discriminate.
  - exact I.
Defined.

Lemma wt_Write_too_large_witness :
  wtTransport.Write (mkStream [] [x01] 0 None) (repeat x00 (Z.to_nat 65536))
  = (mkStream [] [x01] 0 None, 0, Some ErrMessageTooLarge).
Proof.
  apply wt_Write_too_large. vm_compute. reflexivity.
Defined.

Lemma wt_Read_frame_witness :
  exists N,
    Uint16 [x00; x03] = Some N /\ 0 <= N <= 65535 /\
    (len [x00; x00] < N ->
       wtTransport.Read (mkStream [x00; x03; x61; x62; x63; x64] [] 0 None) [x00; x00] =
         Some (mkStream [x61; x62; x63; x64] [] 0 None, [x00; x00], 0,
               Some (ErrSizeExceedsBuffer N (len [x00; x00])))) /\
    (forall payload rest : list byte,
       [x61; x62; x63; x64] = payload ++ rest -> len payload = N ->
       N <= len [x00; x00] ->
       wtTransport.Read (mkStream [x00; x03; x61; x62; x63; x64] [] 0 None) [x00; x00] =
         Some (mkStream rest [] 0 None,
               payload ++ skipn (List.length payload) [x00; x00], N, None)).
Proof.
  apply (wt_Read_frame (mkStream [x00; x03; x61; x62; x63; x64] [] 0 None)
           [x00; x00] [x00; x03] [x61; x62; x63; x64]); reflexivity.
Defined.

End WTFraming.

(** ** WebSocket transport *)

Section WSRead.

Import websocket wsTransport.

(** Events that are passed over leave no trace in what [Read] does. *)
Lemma ws_Read_skip (skipped rest : Conn) (p : list byte) :
  Forall nonText skipped ->
  wsTransport.Read (skipped ++ rest) p = wsTransport.Read rest p.
Proof.
  induction 1 as [|ev skipped Hev _ IH]; [reflexivity|].
  destruct ev as [ty d r|e]; [|destruct Hev].
  simpl in *. destruct (Z.eqb_spec ty TextMessage) as [->|_]; [congruence|].
  exact IH.
Qed.

Lemma copy_fits (p b : list byte) :
  len b <= len p -> copy p b = (b ++ skipn (List.length b) p, len b).
Proof.
  unfold len, copy, copy_into, len. intros H.
  rewrite firstn_all2 by lia. f_equal. lia.
Qed.

Lemma ws_Read_text (b : list byte) (r : option error) (rest : Conn) (p : list byte) :
  wsTransport.Read (Message TextMessage b r :: rest) p =
    match r with
    | Some e => Some (rest, p, 0, Some e)
    | None =>
        if len p <? len b
        then Some (rest, p, 0, Some ErrClientMessageExceeded)
        else let '(p', n) := copy p b in Some (rest, p', n, None)
    end.
Proof. reflexivity. Qed.

Lemma ws_Read_nonText (ty : Z) (b : list byte) (r : option error) (rest : Conn)
    (p : list byte) :
  ty <> TextMessage ->
  wsTransport.Read (Message ty b r :: rest) p = wsTransport.Read rest p.
Proof.
  intros Hty. simpl. destruct (Z.eqb_spec ty TextMessage); [contradiction|reflexivity].
Qed.

(** Every way for [Read] to return without error: some events that are
    not text messages, then a text message that fits the buffer. *)
Lemma ws_Read_ok_inv (c : Conn) :
  forall (p : list byte) (c' : Conn) (p' : list byte) (n : Z),
    wsTransport.Read c p = Some (c', p', n, None) ->
    exists (skipped : Conn) (b : list byte),
      c = skipped ++ Message TextMessage b None :: c' /\
      Forall nonText skipped /\ len b <= len p /\
      p' = b ++ skipn (List.length b) p /\ n = len b.
Proof.
  induction c as [|ev c IH]; intros p c' p' n HR; [discriminate|].
  destruct ev as [ty d r|e]; [|discriminate].
  destruct (Z.eq_dec ty TextMessage) as [->|Hty].
  - rewrite ws_Read_text in HR.
    destruct r as [e|]; [discriminate|].
    destruct (Z.ltb_spec (len p) (len d)) as [|Hfit]; [discriminate|].
    rewrite copy_fits in HR by exact Hfit. injection HR as <- <- <-.
    exists [], d. repeat split; [constructor | exact Hfit].
  - rewrite ws_Read_nonText in HR by exact Hty.
    destruct (IH _ _ _ _ HR) as (skipped & b & -> & Hsk & Hfit & -> & ->).
    exists (Message ty d r :: skipped), b.
    repeat split; [constructor; [exact Hty | exact Hsk] | exact Hfit].
Qed.

(** C6.  [Read] surfaces text messages only.  Leading events that are
    not text messages are consumed and change nothing of the result: a
    text message after them is delivered whole, an error after them is
    returned, and in general the result is that of the connection
    without them.  Conversely, whenever [Read] returns without error,
    the buffer holds the body of the first text message, and everything
    before it on the connection was not a text message; and whenever it
    returns with an error, the buffer is untouched and [n = 0]. *)
Theorem ws_Read_text_only (skipped rest : Conn) (p : list byte) :
  Forall nonText skipped ->
  wsTransport.Read (skipped ++ rest) p = wsTransport.Read rest p /\
  (forall b : list byte, len b <= len p ->
     wsTransport.Read (skipped ++ Message TextMessage b None :: rest) p =
       Some (rest, b ++ skipn (List.length b) p, len b, None)) /\
  (forall e : error,
     wsTransport.Read (skipped ++ Failure e :: rest) p =
       Some (Failure e :: rest, p, 0, Some e)) /\
  (forall (c c' : Conn) (p' : list byte) (n : Z),
     wsTransport.Read c p = Some (c', p', n, None) ->
     exists (passed : Conn) (b : list byte),
       c = passed ++ Message TextMessage b None :: c' /\
       Forall nonText passed /\ len b <= len p /\
       p' = b ++ skipn (List.length b) p /\ n = len b) /\
  (forall (c c' : Conn) (p' : list byte) (n : Z) (e : error),
     wsTransport.Read c p = Some (c', p', n, Some e) -> p' = p /\ n = 0).
Proof.
  intros Hsk. split; [apply ws_Read_skip, Hsk|]. split; [|split; [|split]].
  - intros b Hfit. rewrite ws_Read_skip, ws_Read_text by exact Hsk.
    destruct (Z.ltb_spec (len p) (len b)) as [|_]; [lia|].
    rewrite copy_fits by exact Hfit. reflexivity.
  - intros e. rewrite ws_Read_skip by exact Hsk. reflexivity.
  - intros c. apply ws_Read_ok_inv.
  - intros c. induction c as [|ev c IH]; intros c' p' n e HR; [discriminate|].
    destruct ev as [ty d r|e0].
    + destruct (Z.eq_dec ty TextMessage) as [->|Hty].
      * rewrite ws_Read_text in HR.
        destruct r as [e1|]; [injection HR as <- <- <- <-; auto|].
        destruct (Z.ltb_spec (len p) (len d)) as [|Hfit].
        -- injection HR as <- <- <- <-; auto.
        -- rewrite copy_fits in HR by exact Hfit. discriminate.
      * rewrite ws_Read_nonText in HR by exact Hty. exact (IH _ _ _ _ HR).
    + injection HR as <- <- <- <-; auto.
Qed.

Lemma ws_Read_text_only_witness :
  wsTransport.Read ([Message BinaryMessage [x41; x42] None; Message 7 [x43] None]
                    ++ Message TextMessage [x68; x69] None :: [Failure EOF])
                   [x00; x00; x00]
  = Some ([Failure EOF], [x68; x69] ++ skipn 2 [x00; x00; x00], 2, None).
Proof.
  apply (ws_Read_text_only
           [Message BinaryMessage [x41; x42] None; Message 7 [x43] None]
           [Failure EOF] [x00; x00; x00]).
  - repeat constructor; vm_compute; discriminate.
  - vm_compute. discriminate.
Defined.

End WSRead.

(** ** Auth-token store *)

Section AuthTokens.

Import auth_token.

Lemma pruneLocked_lookup (store : authTokenStore) (now : Z) (k : string)
    (info : authTokenInfo) :
  tokens (pruneLocked store now) !! k = Some info <->
  tokens store !! k = Some info /\ After now (expiresAt info) = false.
Proof.
  unfold pruneLocked; simpl. rewrite map_lookup_filter_Some. reflexivity.
Qed.

Lemma pruneLocked_noneExpired (store : authTokenStore) (now : Z) :
  noneExpired (pruneLocked store now) now.
Proof.
  intros k info Hk. apply pruneLocked_lookup in Hk. tauto.
Qed.

Lemma pruneLocked_ttl (store : authTokenStore) (now : Z) :
  ttl (pruneLocked store now) = ttl store.
Proof. reflexivity. Qed.

(** The check of the caller's IP in [validate]. *)
Lemma ip_check_false (stored ip : string) :
  bool_decide (stored ≠ "") && bool_decide (ip ≠ "") && bool_decide (stored ≠ ip) = false
  <-> stored = "" \/ ip = "" \/ stored = ip.
Proof.
  destruct (decide (stored = "")) as [->|H1]; [simpl; tauto|].
  destruct (decide (ip = "")) as [->|H2].
  { rewrite (bool_decide_eq_true_2 _ H1). simpl. tauto. }
  destruct (decide (stored = ip)) as [->|H3].
  { rewrite !(bool_decide_eq_true_2 _ H2). simpl.
    rewrite bool_decide_eq_false. split; [tauto|]. intros _ H; apply H; reflexivity. }
  rewrite (bool_decide_eq_true_2 _ H1), (bool_decide_eq_true_2 _ H2),
    (bool_decide_eq_true_2 _ H3). simpl. split; [discriminate | tauto].
Qed.

(** [validate] with a non-empty token: the store afterwards is the
    pruned store (the deletion after the look-up never has anything left
    to delete), and the answer is read off the pruned store. *)
Lemma validate_nonempty (store : authTokenStore) (now : Z) (token ip : string) :
  token ≠ "" ->
  validate store now token ip =
    (match tokens (pruneLocked store now) !! token with
     | Some info =>
         negb (bool_decide (auth_token.ip info ≠ "") && bool_decide (ip ≠ "")
               && bool_decide (auth_token.ip info ≠ ip))
     | None => false
     end, pruneLocked store now).
Proof.
  intros Hne. unfold validate. destruct (decide (token = "")); [contradiction|].
  destruct (tokens (pruneLocked store now) !! token) as [info|] eqn:E; [|reflexivity].
  apply pruneLocked_lookup in E as [_ ->].
  destruct (_ && _); reflexivity.
Qed.

Lemma validate_true_iff (store : authTokenStore) (now : Z) (token ip : string) :
  fst (validate store now token ip) = true <->
  token ≠ "" /\
  exists info : authTokenInfo,
    tokens store !! token = Some info /\
    After now (expiresAt info) = false /\
    (auth_token.ip info = "" \/ ip = "" \/ auth_token.ip info = ip).
Proof.
  destruct (decide (token = "")) as [->|Hne].
  { unfold validate; simpl. split; [discriminate | intros [H _]; contradiction]. }
  rewrite validate_nonempty by exact Hne. cbn [fst].
  destruct (tokens (pruneLocked store now) !! token) as [info|] eqn:E.
  - apply pruneLocked_lookup in E as [E Hexp].
    rewrite negb_true_iff, ip_check_false. split.
    + intros Hip. split; [exact Hne|]. exists info. auto.
    + intros [_ (info' & E' & _ & Hip)]. congruence.
  - split; [discriminate|]. intros [_ (info & E' & Hexp & _)].
    assert (H : tokens (pruneLocked store now) !! token = Some info)
      by (apply pruneLocked_lookup; auto).
    congruence.
Qed.

Lemma validateAuthToken_enabled (server : Server) (store : authTokenStore) (now : Z)
    (token ip : string) :
  EnableBasicAuth (options server) = true ->
  authTokens server = Some store ->
  fst (validateAuthToken server now token ip) =
    fst (validate store now token (if AuthIPBinding (options server) then ip else "")).
Proof.
  intros Hen Hst. unfold validateAuthToken. rewrite Hen, Hst. simpl.
  destruct (AuthIPBinding (options server)); simpl;
    destruct (validate store now token _); reflexivity.
Qed.

(** C3 (amended).  [validate(t, ip)] returns true exactly when [t] is not
    empty, [t] is in the store, its expiry time has not passed, and the
    stored IP and the caller's IP are equal or one of them is empty.
    With basic auth disabled [validateAuthToken] returns true for every
    token and IP.  With basic auth enabled and a store, it returns true
    exactly when [t] is not empty, is in the store, has not expired, and,
    if IP binding is enabled, the two IPs are equal or one is empty. *)
Theorem validate_accepts_iff :
  (forall (store : authTokenStore) (now : Z) (token ip : string),
     fst (validate store now token ip) = true <->
     token ≠ "" /\
     exists info : authTokenInfo,
       tokens store !! token = Some info /\
       After now (expiresAt info) = false /\
       (auth_token.ip info = "" \/ ip = "" \/ auth_token.ip info = ip)) /\
  (forall (server : Server) (now : Z) (token ip : string),
     EnableBasicAuth (options server) = false ->
     validateAuthToken server now token ip = (true, server)) /\
  (forall (server : Server) (store : authTokenStore) (now : Z) (token ip : string),
     EnableBasicAuth (options server) = true ->
     authTokens server = Some store ->
     (fst (validateAuthToken server now token ip) = true <->
      token ≠ "" /\
      exists info : authTokenInfo,
        tokens store !! token = Some info /\
        After now (expiresAt info) = false /\
        (AuthIPBinding (options server) = true ->
         auth_token.ip info = "" \/ ip = "" \/ auth_token.ip info = ip))).
Proof.
  split; [exact validate_true_iff|]. split.
  - intros server now token ip Hoff. unfold validateAuthToken. rewrite Hoff. reflexivity.
  - intros server store now token ip Hen Hst.
    rewrite (validateAuthToken_enabled server store) by assumption.
    rewrite validate_true_iff.
    destruct (AuthIPBinding (options server)).
    + split; intros [Hne (info & Hl & Hexp & Hip)]; (split; [exact Hne|]);
        exists info; auto.
    + split; intros [Hne (info & Hl & Hexp & Hip)]; (split; [exact Hne|]);
        exists info; repeat split; auto. intros; discriminate.
Qed.

(** C3 as stated fails.  With IP binding enabled, a token bound to
    10.0.0.1 is accepted from a caller whose IP is empty, and a token
    stored without an IP is accepted from 10.0.0.9: in neither case does
    the stored IP match the caller's.  And the empty token is refused
    even by a store that holds it. *)
Lemma validate_as_specified_counterexample :
  let tok := "0123456789abcdefghijklmnopqrstuv" in
  let bound := mkStore {[ tok := mkInfo 100 "10.0.0.1" ]} authTokenTTL in
  let unbound := mkStore {[ tok := mkInfo 100 "" ]} authTokenTTL in
  let blank := mkStore {[ "" := mkInfo 100 "" ]} authTokenTTL in
  let server (store : authTokenStore) := mkServer (mkOptions true true "") (Some store) in
  (fst (validateAuthToken (server bound) 50 tok "") = true /\
   ~ validate_as_specified true bound 50 tok "") /\
  (fst (validateAuthToken (server unbound) 50 tok "10.0.0.9") = true /\
   ~ validate_as_specified true unbound 50 tok "10.0.0.9") /\
  (fst (validate blank 50 "" "") = false /\
   validate_as_specified true blank 50 "" "").
Proof.
  cbv zeta. split; [split | split; split].
  - vm_compute. reflexivity.
  - intros (info & Hl & _ & Hip). simpl in Hl.
    rewrite lookup_singleton_eq in Hl. injection Hl as <-.
    specialize (Hip eq_refl). discriminate Hip.
  - vm_compute. reflexivity.
  - intros (info & Hl & _ & Hip). simpl in Hl.
    rewrite lookup_singleton_eq in Hl. injection Hl as <-.
    specialize (Hip eq_refl). discriminate Hip.
  - reflexivity.
  - exists (mkInfo 100 ""). simpl. rewrite lookup_singleton_eq. auto.
Qed.

(** *** issue *)

Lemma string_of_list_ascii_length (l : list ascii) :
  String.length (string_of_list_ascii l) = List.length l.
Proof. induction l as [|a l IH]; simpl; [reflexivity | f_equal; exact IH]. Qed.

Lemma Generate_length (rnd : nat -> nat) (n : nat) :
  String.length (randomstring.Generate rnd n) = n.
Proof.
  unfold randomstring.Generate.
  rewrite string_of_list_ascii_length, length_map, length_seq. reflexivity.
Qed.

(** The loop of [issue] ends at the first draw that does not collide. *)
Lemma issueLoop_first_fresh (toks : gmap string authTokenInfo) (info : authTokenInfo)
    (rand : list (nat -> nat)) :
  Exists (fun rnd => ~ collides toks rnd) rand ->
  exists (discarded : list (nat -> nat)) (rnd : nat -> nat) (rand' : list (nat -> nat)),
    rand = discarded ++ rnd :: rand' /\
    Forall (collides toks) discarded /\
    ~ collides toks rnd /\
    issueLoop toks info rand =
      Some (randomstring.Generate rnd authTokenLength,
            <[randomstring.Generate rnd authTokenLength := info]> toks, rand').
Proof.
  induction rand as [|r rand IH]; intros Hex; [inversion Hex|].
  destruct (toks !! randomstring.Generate r authTokenLength) as [i|] eqn:E.
  - assert (Hc : collides toks r) by (unfold collides; rewrite E; eauto).
    destruct IH as (discarded & rnd & rand' & -> & Hd & Hf & Heq).
    { inversion Hex; subst; [contradiction | assumption]. }
    exists (r :: discarded), rnd, rand'.
    split; [reflexivity|]. split; [constructor; assumption|]. split; [exact Hf|].
    simpl. rewrite E. exact Heq.
  - exists [], r, rand.
    split; [reflexivity|]. split; [constructor|]. split.
    + unfold collides. rewrite E. intros [? ?]; discriminate.
    + simpl. rewrite E. reflexivity.
Qed.

(** C7.  When the random source has a draw that does not collide,
    [issue] returns a token: it has 32 characters; it is the first draw
    that does not collide, the draws before it having been discarded;
    it is not a key of the store as it stands when the token is drawn
    (the store after pruning), so it differs from the token of every
    entry that has not expired; and the store afterwards is that store
    with one entry added under the new token, every other entry being as
    it was. *)
Theorem issue_returns_fresh_token (store : authTokenStore) (now : Z) (ip : string)
    (rand : list (nat -> nat)) :
  Exists (fun rnd => ~ collides (tokens (pruneLocked store now)) rnd) rand ->
  exists (token : string) (store' : authTokenStore) (rand' : list (nat -> nat)),
    issue store now ip rand = Some (token, store', rand') /\
    String.length token = 32%nat /\
    tokens (pruneLocked store now) !! token = None /\
    (forall (k : string) (info : authTokenInfo),
       tokens store !! k = Some info -> After now (expiresAt info) = false ->
       k ≠ token /\ tokens store' !! k = Some info) /\
    tokens store' = <[token := mkInfo (now + ttl store) ip]> (tokens (pruneLocked store now)) /\
    exists (discarded : list (nat -> nat)) (rnd : nat -> nat),
      rand = discarded ++ rnd :: rand' /\
      token = randomstring.Generate rnd authTokenLength /\
      Forall (collides (tokens (pruneLocked store now))) discarded.
Proof.
  intros Hex.
  destruct (issueLoop_first_fresh (tokens (pruneLocked store now))
              (mkInfo (now + ttl store) ip) rand Hex)
    as (discarded & rnd & rand' & Hrand & Hd & Hf & Heq).
  assert (Hnone : tokens (pruneLocked store now)
                    !! randomstring.Generate rnd authTokenLength = None).
  { destruct (tokens (pruneLocked store now) !! _) eqn:E; [|reflexivity].
    exfalso. apply Hf. unfold collides. rewrite E. eauto. }
  eexists _, _, rand'. split.
  { unfold issue. rewrite pruneLocked_ttl, Heq. reflexivity. }
  split; [apply Generate_length|]. split; [exact Hnone|]. split; [|split].
  - intros k info Hk Hexp.
    assert (Hp : tokens (pruneLocked store now) !! k = Some info)
      by (apply pruneLocked_lookup; auto).
    assert (Hne : k ≠ randomstring.Generate rnd authTokenLength) by congruence.
    split; [exact Hne|]. simpl. rewrite lookup_insert_ne by congruence. exact Hp.
  - reflexivity.
  - exists discarded, rnd. auto.
Qed.

Lemma issue_returns_fresh_token_witness :
  let tok := "0123456789abcdefghijklmnopqrstuv" in
  let store := mkStore {[ tok := mkInfo 100 "10.0.0.1" ]} authTokenTTL in
  let rand := [(fun i : nat => i); (fun i : nat => 35 - i)%nat] in
  exists (token : string) (store' : authTokenStore) (rand' : list (nat -> nat)),
    issue store 50 "10.0.0.2" rand = Some (token, store', rand') /\
    String.length token = 32%nat /\
    tokens (pruneLocked store 50) !! token = None /\
    (forall (k : string) (info : authTokenInfo),
       tokens store !! k = Some info -> After 50 (expiresAt info) = false ->
       k ≠ token /\ tokens store' !! k = Some info) /\
    tokens store' = <[token := mkInfo (50 + ttl store) "10.0.0.2"]> (tokens (pruneLocked store 50)) /\
    exists (discarded : list (nat -> nat)) (rnd : nat -> nat),
      rand = discarded ++ rnd :: rand' /\
      token = randomstring.Generate rnd authTokenLength /\
      Forall (collides (tokens (pruneLocked store 50))) discarded.
Proof.
  cbv zeta. apply issue_returns_fresh_token.
  apply Exists_cons_tl, Exists_cons_hd.
  unfold collides. vm_compute. intros [x Hx]. discriminate Hx.
Defined.

(** *** No expired entry is left behind *)

(** What the loop of [issue] returns: the first draw that is not a key,
    added to the map; it returns nothing only when every draw at hand
    collided. *)
Lemma issueLoop_result (toks : gmap string authTokenInfo) (info : authTokenInfo)
    (rand : list (nat -> nat)) :
  match issueLoop toks info rand with
  | Some (token, toks', _) => toks !! token = None /\ toks' = <[token := info]> toks
  | None => Forall (collides toks) rand
  end.
Proof.
  induction rand as [|rnd rand IH]; simpl; [constructor|].
  destruct (toks !! randomstring.Generate rnd authTokenLength) as [i|] eqn:E.
  - destruct (issueLoop toks info rand) as [[[t toks'] r]|]; [exact IH|].
    constructor; [unfold collides; rewrite E; eauto | exact IH].
  - auto.
Qed.

(** C8 (amended).  After every [validate] call with a non-empty token,
    and after every [issue] call on a store whose TTL is not negative,
    no entry whose expiry time has passed remains in the token map
    ([issue] fails to return only while every draw collides).
    [validate] never returns true for an expired token: it returns
    false, and for a non-empty token the entry is gone afterwards.
    [validate] with the empty token returns false and leaves the store
    as it is. *)
Theorem no_expired_entry_remains :
  (forall (store : authTokenStore) (now : Z) (token ip : string),
     token ≠ "" -> noneExpired (snd (validate store now token ip)) now) /\
  (forall (store : authTokenStore) (now : Z) (ip : string) (rand : list (nat -> nat)),
     0 <= ttl store ->
     match issue store now ip rand with
     | Some (_, store', _) => noneExpired store' now
     | None => Forall (collides (tokens (pruneLocked store now))) rand
     end) /\
  (forall (store : authTokenStore) (now : Z) (token ip : string) (info : authTokenInfo),
     tokens store !! token = Some info -> After now (expiresAt info) = true ->
     fst (validate store now token ip) = false /\
     (token ≠ "" -> tokens (snd (validate store now token ip)) !! token = None)) /\
  (forall (store : authTokenStore) (now : Z) (ip : string),
     validate store now "" ip = (false, store)).
Proof.
  split; [|split; [|split]].
  - intros store now token ip Hne. rewrite validate_nonempty by exact Hne.
    apply pruneLocked_noneExpired.
  - intros store now ip rand Httl.
    unfold issue. rewrite pruneLocked_ttl.
    pose proof (issueLoop_result (tokens (pruneLocked store now))
                  (mkInfo (now + ttl store) ip) rand) as Hloop.
    destruct (issueLoop _ _ rand) as [[[t toks] r]|]; [|exact Hloop].
    destruct Hloop as [_ ->].
    intros k info Hk. cbn [tokens] in Hk.
    destruct (decide (t = k)) as [->|Hne].
    + rewrite lookup_insert_eq in Hk. injection Hk as <-.
      unfold After; simpl. apply Z.ltb_ge. lia.
    + rewrite lookup_insert_ne in Hk by exact Hne.
      exact (pruneLocked_noneExpired store now k info Hk).
  - intros store now token ip info Hl Hexp.
    destruct (decide (token = "")) as [->|Hne].
    { split; [reflexivity | intros H; contradiction]. }
    rewrite validate_nonempty by exact Hne. cbn [fst snd].
    assert (Hgone : tokens (pruneLocked store now) !! token = None).
    { destruct (tokens (pruneLocked store now) !! token) as [i|] eqn:E; [|reflexivity].
      apply pruneLocked_lookup in E as [E1 E2]. congruence. }
    rewrite Hgone. auto.
  - reflexivity.
Qed.

(** C8 as stated fails.  [validate] with the empty token returns before
    pruning, so an expired entry stays in the map; and on a store whose
    TTL is negative the entry that [issue] adds has expired already. *)
Lemma expired_entry_remains_counterexample :
  let tok := "0123456789abcdefghijklmnopqrstuv" in
  let store := mkStore {[ tok := mkInfo 10 "10.0.0.1" ]} authTokenTTL in
  (validate store 50 "" "10.0.0.1" = (false, store) /\
   ~ noneExpired (snd (validate store 50 "" "10.0.0.1")) 50) /\
  (exists (token : string) (store' : authTokenStore),
     issue (newAuthTokenStore (-1)) 50 "" [fun i : nat => i] = Some (token, store', []) /\
     ~ noneExpired store' 50).
Proof.
  cbv zeta. split; [split|].
  - reflexivity.
  - intros H. specialize (H "0123456789abcdefghijklmnopqrstuv" (mkInfo 10 "10.0.0.1")).
    simpl in H. rewrite lookup_singleton_eq in H. specialize (H eq_refl). discriminate H.
  - exists "0123456789abcdefghijklmnopqrstuv",
      (mkStore (<["0123456789abcdefghijklmnopqrstuv" := mkInfo 49 ""]> ∅) (-1)).
    split; [vm_compute; reflexivity|].
    intros H.
    specialize (H "0123456789abcdefghijklmnopqrstuv" (mkInfo 49 "")).
    cbn [tokens] in H. rewrite lookup_insert_eq in H.
    specialize (H eq_refl). discriminate H.
Qed.

End AuthTokens.

(** ** Strings *)

Section StringFacts.

Import strings.

Lemma len_app (a b : string) : len (a +:+ b) = (len a + len b)%nat.
Proof. induction a as [|x a IH]; simpl; [reflexivity | f_equal; exact IH]. Qed.

Lemma substring_whole (s : string) : substring 0 (len s) s = s.
Proof. induction s as [|x s IH]; simpl; [reflexivity | f_equal; exact IH]. Qed.

Lemma substring_app_front (a b : string) : substring 0 (len a) (a +:+ b) = a.
Proof.
  induction a as [|x a IH]; simpl; [destruct b; reflexivity | f_equal; exact IH].
Qed.

Lemma substring_app_skip (a b : string) (n m : nat) :
  substring (len a + n) m (a +:+ b) = substring n m b.
Proof. induction a as [|x a IH]; simpl; [reflexivity | exact IH]. Qed.

Lemma slice_app_front (a b : string) : slice (a +:+ b) 0 (len a) = a.
Proof. unfold slice. rewrite Nat.sub_0_r. apply substring_app_front. Qed.

Lemma from_app (a b : string) : from (a +:+ b) (len a) = b.
Proof.
  unfold from. rewrite len_app.
  replace (len a + len b - len a)%nat with (len b) by lia.
  rewrite <- (Nat.add_0_r (len a)) at 1.
  rewrite substring_app_skip. apply substring_whole.
Qed.

Lemma from_0 (s : string) : from s 0 = s.
Proof. unfold from. rewrite Nat.sub_0_r. apply substring_whole. Qed.

Lemma free_cons (c x : ascii) (s : string) :
  free c (String x s) <-> x <> c /\ free c s.
Proof.
  unfold free; simpl. destruct (Ascii.eqb_spec x c) as [->|Hne].
  - split; [discriminate | intros [H _]; contradiction].
  - destruct (IndexByte s c); split; try discriminate; try tauto.
    intros [_ H]; discriminate.
Qed.

Lemma free_app (c : ascii) (a b : string) :
  free c (a +:+ b) <-> free c a /\ free c b.
Proof.
  induction a as [|x a IH].
  - unfold free at 2; simpl. tauto.
  - change (String x a +:+ b) with (String x (a +:+ b)).
    rewrite !free_cons, IH. tauto.
Qed.

Lemma IndexByte_app_free (c : ascii) (a b : string) :
  free c a -> IndexByte (a +:+ String c b) c = Some (len a).
Proof.
  induction a as [|x a IH]; simpl; intros Hf.
  - rewrite Ascii.eqb_refl. reflexivity.
  - apply free_cons in Hf as [Hne Hf].
    destruct (Ascii.eqb_spec x c); [contradiction|].
    rewrite (IH Hf). reflexivity.
Qed.

Lemma LastIndexByte_free (c : ascii) (s : string) :
  free c s -> LastIndexByte s c = None.
Proof.
  induction s as [|x s IH]; simpl; intros Hf; [reflexivity|].
  apply free_cons in Hf as [Hne Hf]. rewrite (IH Hf).
  destruct (Ascii.eqb_spec x c); [contradiction | reflexivity].
Qed.

Lemma LastIndexByte_app_last (c : ascii) (a b : string) :
  free c b -> LastIndexByte (a +:+ String c b) c = Some (len a).
Proof.
  intros Hf. induction a as [|x a IH]; simpl.
  - rewrite (LastIndexByte_free c b Hf), Ascii.eqb_refl. reflexivity.
  - rewrite IH. reflexivity.
Qed.

Lemma found_free (c : ascii) (s : string) : free c s -> found (IndexByte s c) = false.
Proof. unfold free. intros ->. reflexivity. Qed.

(** The first element of [Split] is the text before the first
    separator, or the whole text when there is none. *)
Lemma Split_nonempty (s : string) (sep : ascii) : Split s sep <> [].
Proof.
  destruct s as [|x s]; simpl; [discriminate|].
  destruct (Ascii.eqb x sep); [discriminate|].
  destruct (Split s sep); discriminate.
Qed.

Lemma Split_hd_whole (s : string) (sep : ascii) :
  free sep s -> hd EmptyString (Split s sep) = s.
Proof.
  induction s as [|x s IH]; simpl; intros Hf; [reflexivity|].
  apply free_cons in Hf as [Hne Hf].
  destruct (Ascii.eqb_spec x sep); [contradiction|].
  specialize (IH Hf). pose proof (Split_nonempty s sep).
  destruct (Split s sep); [contradiction|]. simpl in *. congruence.
Qed.

Lemma Split_hd_first (entry rest : string) (sep : ascii) :
  free sep entry -> hd EmptyString (Split (entry +:+ String sep rest) sep) = entry.
Proof.
  induction entry as [|x entry IH]; simpl; intros Hf.
  - rewrite Ascii.eqb_refl. reflexivity.
  - apply free_cons in Hf as [Hne Hf].
    destruct (Ascii.eqb_spec x sep); [contradiction|].
    specialize (IH Hf). pose proof (Split_nonempty (entry +:+ String sep rest) sep).
    destruct (Split _ sep); [contradiction|]. simpl in *. congruence.
Qed.

End StringFacts.

(** ** net.SplitHostPort *)

Section SplitHostPortFacts.

Import strings.

Lemma string_app_cons (x : ascii) (a b : string) :
  String x a +:+ b = String x (a +:+ b).
Proof. reflexivity. Qed.

Lemma string_app_assoc (a b c : string) : (a +:+ b) +:+ c = a +:+ (b +:+ c).
Proof.
  induction a as [|x a IH]; [reflexivity|].
  rewrite !string_app_cons, IH. reflexivity.
Qed.

Lemma from_app_cons (a b : string) (c : ascii) :
  from (a +:+ String c b) (len a + 1) = b.
Proof.
  unfold from. rewrite len_app. simpl len.
  replace (len a + S (len b) - (len a + 1))%nat with (len b) by lia.
  rewrite substring_app_skip. simpl. apply substring_whole.
Qed.

Lemma HasPrefix_not_bracket (host rest : string) :
  free "[" host -> HasPrefix (host +:+ String ":" rest) "[" = false.
Proof.
  destruct host as [|x host]; intros Hf; [reflexivity|].
  apply free_cons in Hf as [Hne _].
  rewrite string_app_cons. simpl. destruct (Ascii.eqb_spec x "["); [contradiction | reflexivity].
Qed.

(** An address [host:port] splits into its host and its port. *)
Lemma SplitHostPort_host_port (host port : string) :
  free ":" host -> free "[" host -> free "]" host ->
  free ":" port -> free "[" port -> free "]" port ->
  net.SplitHostPort (host +:+ String ":" port) = Some (host, port).
Proof.
  intros Hc Hl Hr Pc Pl Pr. unfold net.SplitHostPort.
  rewrite (LastIndexByte_app_last ":" host port Pc).
  rewrite (HasPrefix_not_bracket host port Hl).
  rewrite slice_app_front, (found_free _ _ Hc), from_0, from_app_cons.
  rewrite !found_free; [reflexivity | |];
    apply free_app; (split; [assumption|]); apply free_cons; (split; [discriminate | assumption]).
Qed.

(** An address [[host]:port], as for IPv6, splits into the host without
    the brackets and the port. *)
Lemma SplitHostPort_bracketed (host port : string) :
  free "[" host -> free "]" host ->
  free ":" port -> free "[" port -> free "]" port ->
  net.SplitHostPort (String "[" (host +:+ String "]" (String ":" port)))
  = Some (host, port).
Proof.
  intros Hl Hr Pc Pl Pr.
  set (hostport := String "[" (host +:+ String "]" (String ":" port))).
  assert (Hsplit : hostport = String "[" (host +:+ String "]" EmptyString) +:+ String ":" port).
  { unfold hostport. rewrite string_app_cons, string_app_assoc. reflexivity. }
  assert (Hla : len (String "[" (host +:+ String "]" EmptyString)) = (len host + 2)%nat).
  { simpl. rewrite len_app. simpl. lia. }
  assert (Hlen : len hostport = (len host + 3 + len port)%nat).
  { unfold hostport. simpl. rewrite len_app. simpl. lia. }
  unfold net.SplitHostPort.
  rewrite Hsplit at 1. rewrite (LastIndexByte_app_last ":" _ port Pc), Hla.
  change (HasPrefix hostport "[") with true. cbv iota.
  assert (Hend : IndexByte hostport "]" = Some (S (len host))).
  { unfold hostport. simpl. rewrite (IndexByte_app_free "]" host _ Hr). reflexivity. }
  rewrite Hend, Hlen.
  replace (S (len host) + 1 =? len host + 3 + len port)%nat with false
    by (symmetry; apply Nat.eqb_neq; lia).
  replace (S (len host) + 1 =? len host + 2)%nat with true
    by (symmetry; apply Nat.eqb_eq; lia).
  assert (Hfrom1 : from hostport 1 = host +:+ String "]" (String ":" port)).
  { unfold from, hostport. simpl. rewrite Nat.sub_0_r. apply substring_whole. }
  assert (Hfromk : from hostport (S (len host) + 1) = String ":" port).
  { rewrite Hsplit. replace (S (len host) + 1)%nat
      with (len (String "[" (host +:+ String "]" EmptyString))) by (rewrite Hla; lia).
    apply from_app. }
  assert (Hfromi : from hostport (len host + 2 + 1) = port).
  { rewrite Hsplit, <- Hla. apply from_app_cons. }
  assert (Hslice : slice hostport 1 (S (len host)) = host).
  { unfold slice, hostport. simpl. rewrite Nat.sub_0_r. apply substring_app_front. }
  rewrite Hfrom1, Hfromk, Hfromi, Hslice.
  rewrite !found_free; [reflexivity | |].
  - apply free_cons; split; [discriminate | assumption].
  - apply free_app; split; [assumption|].
    apply free_cons; split; [discriminate|]. apply free_cons; split; [discriminate | assumption].
Qed.

(** An address without a colon has no port and does not split. *)
Lemma SplitHostPort_no_colon (addr : string) :
  free ":" addr -> net.SplitHostPort addr = None.
Proof.
  intros Hf. unfold net.SplitHostPort. rewrite (LastIndexByte_free _ _ Hf). reflexivity.
Qed.

End SplitHostPortFacts.

(** ** Client IP *)

Section ClientIP.

Import strings auth_token.


(** The requests of the repository's tests. *)
Example clientIP_forwarded :
  clientIPFromRequest
    (Some (http.mkRequest {[ "X-Forwarded-For" := ["10.0.0.1, 10.0.0.2"] ]}
             "example.com" "127.0.0.1:12345" false))
  = "10.0.0.1".
Proof. vm_compute. reflexivity. Qed.

Example clientIP_remote :
  clientIPFromRequest (Some (http.mkRequest ∅ "example.com" "192.0.2.1:12345" false))
  = "192.0.2.1".
Proof. vm_compute. reflexivity. Qed.

End ClientIP.

(** ** Origin checks *)

Section Origin.

Import origin.

(** C10.  A request whose Origin header is absent or empty passes
    [sameOrigin]. *)
Theorem sameOrigin_no_origin (r : http.Request) :
  http.Header r !! "Origin" = None \/ http.Get (http.Header r) "Origin" = "" ->
  sameOrigin r = true.
Proof.
  intros H.
  assert (He : http.Get (http.Header r) "Origin" = "").
  { destruct H as [H|H]; [|exact H]. unfold http.Get. rewrite H. reflexivity. }
  unfold sameOrigin. rewrite He. reflexivity.
Qed.

Lemma sameOrigin_no_origin_witness :
  sameOrigin (http.mkRequest {[ "User-Agent" := ["curl/8.0"] ]}
                "example.com:8080" "192.0.2.1:12345" false) = true.
Proof.
  apply sameOrigin_no_origin. left. vm_compute. reflexivity.
Defined.


(** The two default cases of the repository's origin test, on
    [sameOrigin]. *)
Example sameOrigin_default_same_origin :
  sameOrigin (http.mkRequest {[ "Origin" := ["https://example.com"] ]}
                "example.com" "192.0.2.1:12345" true) = true.
Proof. vm_compute. reflexivity. Qed.

Example sameOrigin_default_cross_origin :
  sameOrigin (http.mkRequest {[ "Origin" := ["https://evil.com"] ]}
                "example.com" "192.0.2.1:12345" true) = false.
Proof. vm_compute. reflexivity. Qed.

Example sameOrigin_port_mismatch :
  sameOrigin (http.mkRequest {[ "Origin" := ["https://Example.com:8443"] ]}
                "example.com:9443" "192.0.2.1:12345" true) = false.
Proof. vm_compute. reflexivity. Qed.


End Origin.

(** * Further properties *)

(** ** WebTransport transport: broken and short streams *)

Section WTEdges.

Import BigEndian wtFrames.

Lemma frame_length (P : list byte) : List.length (frame P) = (2 + List.length P)%nat.
Proof. unfold frame. rewrite length_app. reflexivity. Qed.

Lemma wt_Write_unlimited (wtt : Stream) (P : list byte) :
  wlimit wtt = None -> len P <= 65535 ->
  wtTransport.Write wtt P =
    (mkStream (incoming wtt) (outgoing wtt ++ frame P) (chunk wtt) None, len P, None).
Proof.
  intros Hw Hmax. unfold wtTransport.Write, frame.
  destruct (Z.ltb_spec 65535 (len P)) as [Hgt|_]; [lia|].
  unfold Stream.Write. rewrite Hw. cbn [wlimit incoming outgoing chunk].
  rewrite <- app_assoc. reflexivity.
Qed.

Lemma wt_Read_frame_ok (rx : Stream) (P p rest : list byte) :
  incoming rx = frame P ++ rest -> len P <= 65535 -> len P <= len p ->
  wtTransport.Read rx p =
    Some (Stream.set_incoming rx rest, P ++ skipn (List.length P) p, len P, None).
Proof.
  intros Hin Hmax Hfit. unfold frame in Hin. rewrite <- app_assoc in Hin.
  assert (Hlen : 0 <= len P <= 65535) by (unfold len in *; lia).
  destruct (wt_Read_header rx p (PutUint16 (uint16 (len P))) (P ++ rest))
    as (N & HN & _ & ->); [reflexivity | exact Hin |].
  rewrite Uint16_PutUint16 in HN by exact Hlen. injection HN as <-.
  destruct (Z.ltb_spec (len p) (len P)) as [Hlt|_]; [lia|].
  unfold len at 1. rewrite Nat2Z.id.
  rewrite (ReadFull_exact (Stream.set_incoming rx (P ++ rest)) P rest) by reflexivity.
  rewrite set_incoming_twice. reflexivity.
Qed.

(** X1.  [Write] on a stream that breaks after [k] bytes, [k] being
    less than the frame: exactly the first [k] bytes of the frame reach
    the stream, the error is wrapped as a header failure when [k < 2]
    and as a payload failure otherwise, and [n] counts the payload bytes
    written, never the header. *)
Theorem wt_Write_broken_stream (wtt : Stream) (P : list byte) (k : nat) :
  len P <= 65535 ->
  wlimit wtt = Some k ->
  (k < 2 + List.length P)%nat ->
  exists s',
    wtTransport.Write wtt P =
      (s', Z.max 0 (Z.of_nat k - 2),
       Some (Wrap ErrStreamClosed
               (if (k <? 2)%nat then "failed to write frame header"
                else "failed to write frame payload"))) /\
    outgoing s' = outgoing wtt ++ firstn k (frame P) /\
    wlimit s' = Some 0%nat.
Proof.
  intros Hmax Hw Hk. unfold wtTransport.Write, frame.
  destruct (Z.ltb_spec 65535 (len P)) as [Hgt|_]; [lia|].
  unfold Stream.Write. rewrite Hw, PutUint16_length.
  destruct (Nat.ltb_spec k 2) as [Hlt|Hge].
  - destruct (Nat.leb_spec 2 k) as [|_]; [lia|].
    replace (Z.max 0 (Z.of_nat k - 2)) with 0 by lia.
    eexists. split; [reflexivity|]. split; [|reflexivity].
    + cbn [outgoing]. rewrite firstn_app, PutUint16_length.
      replace (k - 2)%nat with 0%nat by lia. rewrite firstn_O, app_nil_r. reflexivity.
  - destruct (Nat.leb_spec 2 k) as [_|]; [|lia].
    cbn [wlimit incoming outgoing chunk].
    destruct (Nat.leb_spec (List.length P) (k - 2)) as [|_]; [lia|].
    replace (Z.max 0 (Z.of_nat k - 2)) with (Z.of_nat (k - 2)) by lia.
    eexists. split; [reflexivity|]. split; [|reflexivity].
    + cbn [outgoing]. rewrite firstn_app, PutUint16_length, <- app_assoc.
      rewrite (firstn_all2 (n := k)) by (rewrite PutUint16_length; lia).
      reflexivity.
Qed.

Lemma wt_Write_broken_stream_witness :
  exists s',
    wtTransport.Write (mkStream [] [] 0 (Some 3%nat)) [x61; x62; x63] =
      (s', Z.max 0 (Z.of_nat 3 - 2),
       Some (Wrap ErrStreamClosed "failed to write frame payload")) /\
    outgoing s' = [] ++ firstn 3 (frame [x61; x62; x63]) /\
    wlimit s' = Some 0%nat.
Proof.
  apply (wt_Write_broken_stream (mkStream [] [] 0 (Some 3%nat)) [x61; x62; x63] 3).
  - vm_compute. discriminate.
  - reflexivity.
  - simpl. lia.
Defined.

(** The loop of [ReadAtLeast] on a stream that ends before the bytes
    wanted are there: all that is left is taken, and the loop ends on
    [EOF]. *)
Lemma readLoop_short (fuel : nat) :
  forall (s : Stream) (acc : list byte) (n : nat),
    (List.length acc + List.length (incoming s) < n)%nat ->
    (List.length (incoming s) < fuel)%nat ->
    io.readLoop fuel s acc n n =
      Some (Stream.set_incoming s [], acc ++ incoming s, Some EOF).
Proof.
  induction fuel as [|fuel IH]; intros s acc n Hlen Hfuel; [lia|].
  cbn [io.readLoop].
  assert (Hlt : (List.length acc <? n)%nat = true) by (apply Nat.ltb_lt; lia).
  rewrite Hlt.
  destruct (incoming s) as [|b l] eqn:Hin.
  - unfold Stream.Read. rewrite Hin.
    destruct (n - List.length acc)%nat eqn:Hk; [lia|].
    rewrite <- Hin, set_incoming_id, Hin. reflexivity.
  - destruct (Stream_Read_some s (n - List.length acc) b l)
      as (m & Hm & Hm' & ->); [lia | exact Hin |].
    rewrite (IH _ (acc ++ firstn m (b :: l)) n).
    + cbn [incoming Stream.set_incoming].
      rewrite set_incoming_twice, <- app_assoc, firstn_skipn. reflexivity.
    + cbn [incoming Stream.set_incoming].
      rewrite length_app, firstn_length_le by exact Hm'.
      rewrite length_skipn. simpl in *. lia.
    + cbn [incoming Stream.set_incoming]. rewrite length_skipn. simpl in *. lia.
Qed.

Lemma ReadFull_short (s : Stream) (n : nat) :
  (List.length (incoming s) < n)%nat ->
  io.ReadFull s n =
    Some (Stream.set_incoming s [], incoming s,
          Some (match incoming s with [] => EOF | _ :: _ => ErrUnexpectedEOF end)).
Proof.
  intros Hlt. unfold io.ReadFull, io.ReadAtLeast. rewrite Nat.ltb_irrefl.
  rewrite readLoop_short by (simpl; lia). cbn [app].
  destruct (Nat.leb_spec n (List.length (incoming s))) as [|_]; [lia|].
  destruct (incoming s); reflexivity.
Qed.

(** X2.  [Read] on a stream that ends before a whole header: with
    nothing left it returns [io.EOF], with a single byte left
    [io.ErrUnexpectedEOF]; [n] is 0 and the buffer is untouched. *)
Theorem wt_Read_end_of_stream (s : Stream) (p : list byte) :
  (List.length (incoming s) < 2)%nat ->
  wtTransport.Read s p =
    Some (Stream.set_incoming s [], p, 0,
          Some (match incoming s with [] => EOF | _ :: _ => ErrUnexpectedEOF end)).
Proof.
  intros Hlt. unfold wtTransport.Read. rewrite ReadFull_short by exact Hlt.
  reflexivity.
Qed.

Lemma wt_Read_end_of_stream_witness :
  wtTransport.Read (mkStream [x00] [] 0 None) [x07; x07] =
    Some (mkStream [] [] 0 None, [x07; x07], 0, Some ErrUnexpectedEOF).
Proof.
  apply (wt_Read_end_of_stream (mkStream [x00] [] 0 None) [x07; x07]). simpl. lia.
Defined.

(** X3.  [Read] of a frame whose payload is cut short by the end of the
    stream: the bytes that did arrive are put into the buffer and
    counted in [n], with [io.ErrUnexpectedEOF]; when no payload byte
    arrived at all the result is [n = 0] with plain [io.EOF], as at a
    clean end of the stream. *)
Theorem wt_Read_truncated_payload (s : Stream) (p h body : list byte) (N : Z) :
  List.length h = 2%nat ->
  incoming s = h ++ body ->
  Uint16 h = Some N ->
  len body < N <= len p ->
  wtTransport.Read s p =
    Some (Stream.set_incoming s [], body ++ skipn (List.length body) p, len body,
          Some (match body with [] => EOF | _ :: _ => ErrUnexpectedEOF end)).
Proof.
  intros Hh Hin HN [Hshort Hfit].
  destruct (wt_Read_header s p h body Hh Hin) as (N' & HN' & _ & ->).
  rewrite HN in HN'. injection HN' as <-.
  destruct (Z.ltb_spec (len p) N) as [Hlt|_]; [lia|].
  rewrite ReadFull_short by (cbn [incoming Stream.set_incoming]; unfold len in *; lia).
  cbn [incoming Stream.set_incoming]. rewrite set_incoming_twice. reflexivity.
Qed.

Lemma wt_Read_truncated_payload_witness :
  wtTransport.Read (mkStream [x00; x03; x61] [] 0 None) [x07; x07; x07] =
    Some (mkStream [] [] 0 None, [x61; x07; x07], 1, Some ErrUnexpectedEOF).
Proof.
  apply (wt_Read_truncated_payload (mkStream [x00; x03; x61] [] 0 None)
           [x07; x07; x07] [x00; x03] [x61] 3); try reflexivity.
  vm_compute. split; [reflexivity | discriminate].
Defined.

End WTEdges.

(** ** WebTransport transport: sequences of messages *)

Section WTSequences.

Import BigEndian wtFrames.

Lemma PutUint16_inj (m n : Z) :
  0 <= m <= 65535 -> 0 <= n <= 65535 ->
  PutUint16 (uint16 m) = PutUint16 (uint16 n) -> m = n.
Proof.
  intros Hm Hn Heq.
  pose proof (Uint16_PutUint16 m Hm) as H1. pose proof (Uint16_PutUint16 n Hn) as H2.
  rewrite Heq in H1. congruence.
Qed.

(** X4.  Frames are told apart by their bytes alone: when a frame
    followed by anything equals another frame followed by anything, the
    payloads are equal and so is what follows.  No frame is the
    beginning of another. *)
Theorem frame_unique_parse (P Q rest rest' : list byte) :
  len P <= 65535 -> len Q <= 65535 ->
  frame P ++ rest = frame Q ++ rest' ->
  P = Q /\ rest = rest'.
Proof.
  intros HP HQ Heq. unfold frame in Heq. rewrite <- !app_assoc in Heq.
  apply app_inj_1 in Heq as [Hh Hrest]; [|reflexivity].
  apply PutUint16_inj in Hh; [|unfold len in *; lia..].
  apply app_inj_1 in Hrest; [exact Hrest|]. unfold len in Hh. lia.
Qed.

Lemma frame_unique_parse_witness :
  [x00; x01] = [x00; x01] /\ [x63; x00; x00] = [x63; x00; x00].
Proof.
  apply (frame_unique_parse [x00; x01] [x00; x01] [x63; x00; x00] [x63; x00; x00]).
  - vm_compute. discriminate.
  - vm_compute. discriminate.
  - reflexivity.
Defined.

Lemma WriteAll_unlimited (msgs : list (list byte)) :
  forall wtt : Stream,
    wlimit wtt = None -> Forall (fun P : list byte => len P <= 65535) msgs ->
    WriteAll wtt msgs =
      (mkStream (incoming wtt) (outgoing wtt ++ concat (List.map frame msgs))
                (chunk wtt) None,
       List.map (fun P : list byte => (len P, @None error)) msgs).
Proof.
  induction msgs as [|P msgs IH]; intros wtt Hw Hall.
  - simpl. rewrite app_nil_r, <- Hw. destruct wtt; reflexivity.
  - inversion Hall as [|? ? HP Hall']; subst.
    cbn [WriteAll]. rewrite wt_Write_unlimited by assumption.
    rewrite IH by (try reflexivity; assumption).
    cbn [incoming outgoing chunk List.map concat]. rewrite <- app_assoc. reflexivity.
Qed.

Lemma ReadMessages_frames (msgs : list (list byte)) (bufsize : nat) :
  forall (rx : Stream) (rest : list byte),
    fit bufsize msgs ->
    incoming rx = concat (List.map frame msgs) ++ rest ->
    ReadMessages (List.length msgs) rx bufsize = Some (Stream.set_incoming rx rest, msgs).
Proof.
  induction msgs as [|P msgs IH]; intros rx rest Hfit Hin.
  - simpl in *. rewrite <- Hin, set_incoming_id. reflexivity.
  - inversion Hfit as [|? ? [HP Hb] Hfit']; subst.
    cbn [List.length ReadMessages].
    cbn [List.map concat] in Hin. rewrite <- app_assoc in Hin.
    rewrite (wt_Read_frame_ok rx P (repeat x00 bufsize) _ Hin HP)
      by (unfold len; rewrite repeat_length; lia).
    rewrite (IH _ rest Hfit') by reflexivity.
    rewrite set_incoming_twice. unfold len. rewrite Nat2Z.id.
    rewrite firstn_app, Nat.sub_diag, firstn_O, app_nil_r, firstn_all. reflexivity.
Qed.

(** X5.  Message boundaries survive the byte stream.  Messages written
    one after the other with [Write] on a stream that takes them all
    succeed each with [n = len(P)]; and [Read], called as many times on
    a stream where the bytes written arrive, in whatever pieces, with a
    buffer that fits each message, returns the same messages in the same
    order and leaves on the stream just what follows them. *)
Theorem wt_messages_roundtrip (wtt rx : Stream) (msgs : list (list byte))
    (bufsize : nat) (rest : list byte) :
  wlimit wtt = None ->
  fit bufsize msgs ->
  incoming rx = skipn (List.length (outgoing wtt)) (outgoing (fst (WriteAll wtt msgs))) ++ rest ->
  snd (WriteAll wtt msgs) = List.map (fun P : list byte => (len P, @None error)) msgs /\
  ReadMessages (List.length msgs) rx bufsize = Some (Stream.set_incoming rx rest, msgs).
Proof.
  intros Hw Hfit Hin.
  assert (Hall : Forall (fun P : list byte => len P <= 65535) msgs).
  { eapply List.Forall_impl; [|exact Hfit]. intros P [H _]. exact H. }
  rewrite WriteAll_unlimited in * by assumption. cbn [fst snd outgoing] in *.
  split; [reflexivity|].
  rewrite skipn_app, Nat.sub_diag, skipn_all, skipn_O in Hin. cbn [app] in Hin.
  apply ReadMessages_frames; assumption.
Qed.

Lemma wt_messages_roundtrip_witness :
  snd (WriteAll (mkStream [] [x2a] 0 None) [[x68; x69]; []; [x21]]) =
    [(2, None); (0, None); (1, None)] /\
  ReadMessages 3 (mkStream [x00; x02; x68; x69; x00; x00; x00; x01; x21; x09] [] 0 None) 4
    = Some (mkStream [x09] [] 0 None, [[x68; x69]; []; [x21]]).
Proof.
  apply (wt_messages_roundtrip (mkStream [] [x2a] 0 None)
           (mkStream [x00; x02; x68; x69; x00; x00; x00; x01; x21; x09] [] 0 None)
           [[x68; x69]; []; [x21]] 4 [x09]).
  - reflexivity.
  - repeat constructor; simpl; try lia; vm_compute; discriminate.
  - reflexivity.
Defined.

End WTSequences.

(** ** The client's framing (webtransport.ts) against the server's *)

Section ClientHeader.

Import BigEndian wtFrames WebTransportConnection.

Lemma byte_of_Z_mod (v : Z) : byte_of_Z (v mod 256) = byte_of_Z v.
Proof. unfold byte_of_Z. rewrite Z.mod_mod by lia. reflexivity. Qed.

Lemma byte_of_Z_of_byte (b : byte) : byte_of_Z (Z_of_byte b) = b.
Proof.
  unfold byte_of_Z. pose proof (Z_of_byte_range b) as Hr.
  rewrite Z.mod_small by exact Hr. unfold Z_of_byte.
  rewrite N2Z.id, Byte.of_to_N. reflexivity.
Qed.

(** The header the client writes is the header the server writes, for
    every length: the length modulo 65536, big endian. *)
Lemma header_PutUint16 (n : Z) : 0 <= n -> header n = PutUint16 (uint16 n).
Proof.
  intros Hn. unfold header, PutUint16, uint16.
  change 255 with (Z.ones 8). rewrite !Z.land_ones, !Z.shiftr_div_pow2 by lia.
  change (2 ^ 8) with 256.
  pose proof (Z.rem_mul_r n 256 256) as Hrem.
  change (256 * 256) with 65536 in Hrem. rewrite Hrem by lia.
  assert (Hhi : (n mod 256 + 256 * ((n / 256) mod 256)) / 256 = (n / 256) mod 256).
  { rewrite Z.add_comm, Z.mul_comm, Z.div_add_l by lia.
    rewrite (Z.div_small (n mod 256)) by (apply Z.mod_pos_bound; lia). lia. }
  assert (Hlo : (n mod 256 + 256 * ((n / 256) mod 256)) mod 256 = n mod 256).
  { rewrite Z.mul_comm, Z.mod_add, Z.mod_mod by lia. reflexivity. }
  rewrite Hhi. rewrite <- (byte_of_Z_mod (n mod 256 + _)), Hlo. reflexivity.
Qed.

Lemma frameLength_Uint16 (b0 b1 : byte) (t : list byte) :
  Uint16 (b0 :: b1 :: t) = Some (frameLength b0 b1).
Proof. unfold Uint16, frameLength. rewrite Z.lor_comm. reflexivity. Qed.

Lemma frameLength_range (b0 b1 : byte) : 0 <= frameLength b0 b1 <= 65535.
Proof. apply (Uint16_range [b0; b1]). apply frameLength_Uint16. Qed.

(** Encoding the length that two header bytes decode to gives the two
    bytes back. *)
Lemma PutUint16_frameLength (b0 b1 : byte) :
  PutUint16 (uint16 (frameLength b0 b1)) = [b0; b1].
Proof.
  pose proof (frameLength_range b0 b1) as Hr.
  pose proof (Z_of_byte_range b0) as H0. pose proof (Z_of_byte_range b1) as H1.
  unfold uint16. rewrite Z.mod_small by lia.
  assert (Hsum : frameLength b0 b1 = Z_of_byte b0 * 2 ^ 8 + Z_of_byte b1).
  { unfold frameLength. rewrite Z.shiftl_mul_pow2 by lia.
    assert (Hland : Z.land (Z_of_byte b0 * 2 ^ 8) (Z_of_byte b1) = 0).
    { apply Z.bits_inj'. intros k Hk. rewrite Z.land_spec, Z.bits_0.
      destruct (Z.ltb_spec k 8).
      - rewrite Z.mul_pow2_bits_low by lia. reflexivity.
      - rewrite (Z.bits_above_log2 (Z_of_byte b1)), andb_false_r; [reflexivity|lia|].
        destruct (Z.eq_dec (Z_of_byte b1) 0) as [->|]; [simpl; lia|].
        apply Z.log2_lt_pow2; [lia|]. apply Z.lt_le_trans with (2 ^ 8); [lia|].
        apply Z.pow_le_mono_r; lia. }
    rewrite <- Z.lxor_lor, <- Z.add_nocarry_lxor by exact Hland. reflexivity. }
  unfold PutUint16. rewrite Z.shiftr_div_pow2 by lia. rewrite Hsum.
  rewrite Z.div_add_l, (Z.div_small (Z_of_byte b1)), Z.add_0_r by lia.
  rewrite byte_of_Z_of_byte. f_equal. f_equal.
  rewrite <- byte_of_Z_mod. change 256 with (2 ^ 8).
  rewrite Z.add_comm, Z.mod_add, Z.mod_small by lia. apply byte_of_Z_of_byte.
Qed.

End ClientHeader.

Section ClientFrames.

Import BigEndian wtFrames WebTransportConnection.

Lemma frames_cons (P : list byte) (msgs : list (list byte)) (tail : list byte) :
  concat (List.map frame (P :: msgs)) ++ tail
  = frame P ++ concat (List.map frame msgs) ++ tail.
Proof. cbn [List.map concat]. rewrite <- app_assoc. reflexivity. Qed.

(** A buffer that starts with a complete frame: the loop takes the
    payload off and goes on with what follows. *)
Lemma processFrames_frame (fuel : nat) (P rest : list byte) :
  len P <= 65535 ->
  processFrames (S fuel) (frame P ++ rest) =
    match processFrames fuel rest with
    | Some (payloads, tail) => Some (P :: payloads, tail)
    | None => None
    end.
Proof.
  intros HP.
  assert (Hlen : 0 <= len P <= 65535) by (unfold len in *; lia).
  pose proof (Uint16_PutUint16 (len P) Hlen) as HU.
  unfold frame, PutUint16 in *.
  set (b0 := byte_of_Z (Z.shiftr (uint16 (len P)) 8)) in *.
  set (b1 := byte_of_Z (uint16 (len P))) in *.
  rewrite frameLength_Uint16 in HU. injection HU as HL.
  cbn [app processFrames]. rewrite HL.
  assert (Hb : len (b0 :: b1 :: P ++ rest) = 2 + len P + len rest).
  { unfold len. cbn [List.length]. rewrite length_app. lia. }
  destruct (Z.ltb_spec (len (b0 :: b1 :: P ++ rest)) (2 + len P)) as [Hlt|_].
  { unfold len in *. lia. }
  unfold slice.
  replace (Z.to_nat (2 + len P)) with (S (S (List.length P))) by (unfold len; lia).
  change (Z.to_nat 2) with 2%nat. cbn [skipn].
  replace (S (S (List.length P)) - 2)%nat with (List.length P) by lia.
  rewrite skipn_O, firstn_app, Nat.sub_diag, firstn_O, app_nil_r, firstn_all.
  rewrite skipn_app, Nat.sub_diag, skipn_all, skipn_O. reflexivity.
Qed.

(** A buffer without a complete frame at its head is left alone. *)
Lemma processFrames_incomplete (fuel : nat) (b : list byte) :
  incomplete b -> processFrames fuel b = Some ([], b).
Proof.
  destruct b as [|b0 [|b1 t]]; try (destruct fuel; reflexivity).
  unfold incomplete. intros Hlt. destruct fuel; cbn [processFrames];
    destruct (Z.ltb_spec (len (b0 :: b1 :: t)) (2 + frameLength b0 b1)); try reflexivity; lia.
Qed.

Lemma processFrames_frames (msgs : list (list byte)) :
  forall (fuel : nat) (tail : list byte),
    Forall (fun P : list byte => len P <= 65535) msgs ->
    incomplete tail ->
    (List.length msgs <= fuel)%nat ->
    processFrames fuel (concat (List.map frame msgs) ++ tail) = Some (msgs, tail).
Proof.
  induction msgs as [|P msgs IH]; intros fuel tail Hall Htail Hfuel.
  - apply processFrames_incomplete, Htail.
  - inversion Hall as [|? ? HP Hall']; subst.
    destruct fuel as [|fuel]; [simpl in Hfuel; lia|].
    rewrite frames_cons, processFrames_frame by exact HP.
    rewrite IH by (try assumption; simpl in Hfuel; lia). reflexivity.
Qed.

(** The loop always ends, given fuel for the bytes in the buffer, and
    what it returns is the one way to read the buffer as complete
    frames followed by an incomplete rest. *)
Lemma processFrames_decompose (fuel : nat) :
  forall b : list byte,
    (List.length b <= fuel)%nat ->
    exists (msgs : list (list byte)) (tail : list byte),
      processFrames fuel b = Some (msgs, tail) /\
      b = concat (List.map frame msgs) ++ tail /\
      Forall (fun P : list byte => len P <= 65535) msgs /\
      incomplete tail /\
      (2 * List.length msgs <= List.length b)%nat.
Proof.
  induction fuel as [|fuel IH]; intros b Hfuel.
  - destruct b; [|simpl in Hfuel; lia].
    exists [], []. repeat split; simpl; auto.
  - destruct b as [|b0 [|b1 t]].
    + exists [], []. repeat split; simpl; auto; lia.
    + exists [], [b0]. repeat split; simpl; auto; lia.
    + destruct (Z.ltb_spec (len (b0 :: b1 :: t)) (2 + frameLength b0 b1)) as [Hlt|Hge].
      * exists [], (b0 :: b1 :: t).
        rewrite processFrames_incomplete by exact Hlt.
        repeat split; simpl; auto; lia.
      * pose proof (frameLength_range b0 b1) as Hr.
        set (L := Z.to_nat (frameLength b0 b1)).
        assert (HL : (L <= List.length t)%nat).
        { unfold len in Hge. cbn [List.length] in Hge. lia. }
        assert (Hsplit : b0 :: b1 :: t = frame (firstn L t) ++ skipn L t).
        { unfold frame. unfold len. rewrite firstn_length_le by exact HL.
          unfold L. rewrite Z2Nat.id by lia. rewrite PutUint16_frameLength.
          cbn [app]. rewrite firstn_skipn. reflexivity. }
        assert (HP : len (firstn L t) <= 65535).
        { unfold len. rewrite firstn_length_le by exact HL. unfold L. lia. }
        destruct (IH (skipn L t)) as (msgs & tail & Hp & Hb & Hall & Htail & Hcount).
        { rewrite length_skipn. simpl in Hfuel. lia. }
        exists (firstn L t :: msgs), tail.
        rewrite Hsplit at 1. rewrite processFrames_frame, Hp by exact HP.
        split; [reflexivity|]. split; [|split; [|split]].
        -- rewrite frames_cons, <- Hb. exact Hsplit.
        -- constructor; assumption.
        -- exact Htail.
        -- rewrite length_skipn in Hcount. cbn [List.length]. lia.
Qed.

End ClientFrames.

Section ClientInterop.

Import BigEndian wtFrames WebTransportConnection.

Variable JSString : Type.
Variable encode : JSString -> list byte.
Variable decode : list byte -> JSString.

Local Abbreviation bounded := (Forall (fun P : list byte => len P <= 65535)).

(** There is one way only to read a buffer as complete frames followed
    by an incomplete rest. *)
Lemma frames_unique (msgs msgs' : list (list byte)) (tail tail' : list byte) :
  bounded msgs -> bounded msgs' -> incomplete tail -> incomplete tail' ->
  concat (List.map frame msgs) ++ tail = concat (List.map frame msgs') ++ tail' ->
  msgs = msgs' /\ tail = tail'.
Proof.
  intros Hb Hb' Ht Ht' Heq.
  pose proof (processFrames_frames msgs (List.length msgs + List.length msgs') tail
                Hb Ht ltac:(lia)) as H1.
  pose proof (processFrames_frames msgs' (List.length msgs + List.length msgs') tail'
                Hb' Ht' ltac:(lia)) as H2.
  rewrite Heq in H1. rewrite H1 in H2. injection H2 as -> ->. auto.
Qed.

(** What one turn of the reading loop does. *)
Lemma receive_spec (c : State JSString) (value : list byte) :
  exists (msgs : list (list byte)) (tail : list byte),
    receive JSString decode c value =
      Some (mkState (isConnected c) (stream c) tail (receiveCallback c)
              (received c ++ (if receiveCallback c then List.map decode msgs else []))) /\
    readBuffer c ++ value = concat (List.map frame msgs) ++ tail /\
    bounded msgs /\ incomplete tail.
Proof.
  destruct (processFrames_decompose (List.length (readBuffer c ++ value))
              (readBuffer c ++ value) ltac:(lia))
    as (msgs & tail & Hp & Hb & Hall & Htail & _).
  exists msgs, tail. unfold receive. rewrite Hp. auto.
Qed.

Lemma receive_compose (c c' : State JSString) (v w : list byte) :
  receive JSString decode c v = Some c' ->
  receive JSString decode c' w = receive JSString decode c (v ++ w).
Proof.
  intros Hc.
  destruct (receive_spec c v) as (ms & tail & Hr & Hb & Hall & Htail).
  rewrite Hr in Hc. injection Hc as <-.
  destruct (receive_spec (mkState (isConnected c) (stream c) tail (receiveCallback c)
                            (received c ++ (if receiveCallback c then List.map decode ms else [])))
              w) as (ms' & tail' & Hr' & Hb' & Hall' & Htail').
  destruct (receive_spec c (v ++ w)) as (M & T & HR & HB & HAll & HT).
  rewrite Hr', HR. cbn [isConnected stream readBuffer receiveCallback received] in *.
  assert (Hwhole : concat (List.map frame M) ++ T
                   = concat (List.map frame (ms ++ ms')) ++ tail').
  { rewrite <- HB, app_assoc, Hb, <- app_assoc, Hb'.
    rewrite List.map_app, concat_app, <- app_assoc. reflexivity. }
  apply frames_unique in Hwhole as [-> ->]; try assumption.
  2:{ apply Forall_app; split; assumption. }
  f_equal. f_equal. rewrite <- app_assoc. f_equal.
  destruct (receiveCallback c); [rewrite List.map_app|]; reflexivity.
Qed.

(** X6.  A message the client sends reaches the server whole.  For a
    connected client whose message encodes to at most 65535 bytes,
    [send] hands the writer one frame, and the server's [Read] on a
    stream where that frame arrives, with a buffer that fits the
    message, returns the encoded message, its length and no error. *)
Theorem client_send_server_Read (c : State JSString) (written : list byte)
    (data : JSString) :
  isConnected c = true ->
  stream c = Some written ->
  len (encode data) <= 65535 ->
  stream (send JSString encode c data) = Some (written ++ frame (encode data)) /\
  forall (rx : Stream) (p rest : list byte),
    incoming rx = frame (encode data) ++ rest ->
    len (encode data) <= len p ->
    wtTransport.Read rx p =
      Some (Stream.set_incoming rx rest,
            encode data ++ skipn (List.length (encode data)) p,
            len (encode data), None).
Proof.
  intros Hc Hs Hmax. split.
  - unfold send. rewrite Hs, Hc. cbn [negb stream].
    unfold frame. rewrite header_PutUint16 by (unfold len; lia). reflexivity.
  - intros rx p rest Hin Hfit. apply wt_Read_frame_ok; assumption.
Qed.

(** X7.  [send] has no upper bound on the payload: a message that
    encodes to more than 65535 bytes is written with the length modulo
    65536 in its header.  The server's [Read] then returns, without any
    error, only the first [len mod 65536] bytes as the message, and the
    other bytes of the payload stay on the stream, where the next [Read]
    takes them for a header. *)
Theorem client_send_overflow (c : State JSString) (written : list byte)
    (data : JSString) :
  isConnected c = true ->
  stream c = Some written ->
  65535 < len (encode data) ->
  exists fr : list byte,
    stream (send JSString encode c data) = Some (written ++ fr) /\
    forall (rx : Stream) (p rest : list byte),
      incoming rx = fr ++ rest ->
      len (encode data) mod 65536 <= len p ->
      wtTransport.Read rx p =
        Some (Stream.set_incoming rx
                (skipn (Z.to_nat (len (encode data) mod 65536)) (encode data) ++ rest),
              firstn (Z.to_nat (len (encode data) mod 65536)) (encode data)
                ++ skipn (Z.to_nat (len (encode data) mod 65536)) p,
              len (encode data) mod 65536, None).
Proof.
  intros Hc Hs Hbig. set (payload := encode data) in *.
  set (m := len payload mod 65536).
  assert (Hm : 0 <= m < 65536) by (apply Z.mod_pos_bound; lia).
  exists (header (len payload) ++ payload). split.
  - unfold send. rewrite Hs, Hc. reflexivity.
  - intros rx p rest Hin Hfit.
    rewrite header_PutUint16 in Hin by (unfold len; lia).
    rewrite <- app_assoc in Hin.
    destruct (wt_Read_header rx p (PutUint16 (uint16 (len payload))) (payload ++ rest))
      as (N & HN & _ & ->); [reflexivity | exact Hin |].
    assert (Hu : uint16 (len payload) = uint16 m).
    { unfold uint16, m. rewrite Z.mod_mod by lia. reflexivity. }
    rewrite Hu, Uint16_PutUint16 in HN by lia. injection HN as <-.
    destruct (Z.ltb_spec (len p) m) as [Hlt|_]; [lia|].
    assert (Hle : (Z.to_nat m <= List.length payload)%nat) by (unfold len in *; lia).
    assert (Hsplit : payload ++ rest
                     = firstn (Z.to_nat m) payload ++ skipn (Z.to_nat m) payload ++ rest).
    { rewrite app_assoc, firstn_skipn. reflexivity. }
    rewrite <- (firstn_length_le payload Hle) at 1.
    rewrite (ReadFull_exact _ (firstn (Z.to_nat m) payload)
               (skipn (Z.to_nat m) payload ++ rest)) by exact Hsplit.
    rewrite set_incoming_twice, (firstn_length_le payload Hle).
    unfold len at 1. rewrite firstn_length_le by exact Hle.
    rewrite Z2Nat.id by lia. reflexivity.
Qed.

(** X8.  The loop that processes complete frames always ends, and it
    reads the buffer in the one way possible: the payloads it takes off
    are those of the complete frames at the head of the buffer, in
    order, and what it leaves is the rest, which does not start with a
    complete frame.  No byte is lost, added or moved. *)
Theorem processFrames_reads_frames (b : list byte) :
  exists (msgs : list (list byte)) (tail : list byte),
    processFrames (List.length b) b = Some (msgs, tail) /\
    b = concat (List.map frame msgs) ++ tail /\
    bounded msgs /\ incomplete tail /\
    forall (msgs' : list (list byte)) (tail' : list byte),
      bounded msgs' -> incomplete tail' ->
      b = concat (List.map frame msgs') ++ tail' ->
      msgs' = msgs /\ tail' = tail.
Proof.
  destruct (processFrames_decompose (List.length b) b ltac:(lia))
    as (msgs & tail & Hp & Hb & Hall & Htail & _).
  exists msgs, tail. split; [exact Hp|]. split; [exact Hb|].
  split; [exact Hall|]. split; [exact Htail|].
  intros msgs' tail' Hall' Htail' Hb'.
  apply (frames_unique msgs' msgs tail' tail); try assumption.
  rewrite <- Hb'. exact Hb.
Qed.

Lemma startReading_cons (c : State JSString) (value : list byte)
    (chunks : list (list byte)) :
  isConnected c = true ->
  startReading JSString decode c (value :: chunks) =
    match receive JSString decode c value with
    | Some c' => startReading JSString decode c' chunks
    | None => None
    end.
Proof. intros Hc. cbn [startReading]. rewrite Hc. reflexivity. Qed.

(** Reading chunk after chunk is reading the concatenation at once. *)
Lemma startReading_concat (c : State JSString) (value : list byte)
    (chunks : list (list byte)) :
  isConnected c = true ->
  startReading JSString decode c (value :: chunks)
  = receive JSString decode c (concat (value :: chunks)).
Proof.
  revert c value. induction chunks as [|w chunks IH]; intros c value Hc.
  - rewrite startReading_cons by exact Hc. cbn [startReading concat].
    rewrite app_nil_r. destruct (receive JSString decode c value); reflexivity.
  - rewrite startReading_cons by exact Hc.
    destruct (receive_spec c value) as (ms & tail & Hr & _).
    rewrite Hr.
    rewrite IH by exact Hc.
    rewrite (receive_compose c _ value _ Hr). reflexivity.
Qed.

(** X9.  What the client delivers does not depend on how the byte
    stream is cut into chunks: reading the chunks one after the other
    ends in the same state, with the same messages delivered in the same
    order, as reading their concatenation in one piece. *)
Theorem startReading_chunking (c : State JSString) (value : list byte)
    (chunks : list (list byte)) :
  isConnected c = true ->
  startReading JSString decode c (value :: chunks) = receive JSString decode c (concat (value :: chunks)).
Proof. exact (startReading_concat c value chunks). Qed.

(** X10.  Messages the server writes reach the client whole.  When the
    bytes that [Write] put on the stream for a sequence of messages
    arrive at a connected client with an empty buffer, in whatever
    chunks, the receive callback is called with the decoded messages, in
    order, once each, and the buffer is empty again. *)
Theorem server_Write_client_receives (wtt : Stream) (msgs : list (list byte))
    (c : State JSString) (value : list byte) (chunks : list (list byte)) :
  wlimit wtt = None ->
  bounded msgs ->
  isConnected c = true ->
  receiveCallback c = true ->
  readBuffer c = [] ->
  concat (value :: chunks)
    = skipn (List.length (outgoing wtt)) (outgoing (fst (WriteAll wtt msgs))) ->
  startReading JSString decode c (value :: chunks) =
    Some (mkState true (stream c) [] true (received c ++ List.map decode msgs)).
Proof.
  intros Hw Hall Hc Hcb Hrb Hbytes.
  rewrite WriteAll_unlimited in Hbytes by assumption. cbn [fst outgoing] in Hbytes.
  rewrite skipn_app, Nat.sub_diag, skipn_all, skipn_O in Hbytes. cbn [app] in Hbytes.
  rewrite startReading_concat, Hbytes by exact Hc.
  destruct (receive_spec c (concat (List.map frame msgs))) as (M & T & HR & HB & HAll & HT).
  rewrite Hrb in HB. cbn [app] in HB.
  rewrite <- (app_nil_r (concat (List.map frame msgs))) in HB.
  apply frames_unique in HB as [-> <-]; try assumption; [|exact I].
  rewrite HR, Hc, Hcb. reflexivity.
Qed.

End ClientInterop.

Section ClientInteropWitnesses.

Import BigEndian wtFrames WebTransportConnection.

Lemma client_send_server_Read_witness :
  stream (send (list byte) (fun d => d) (mkState true (Some [x2a]) [] true []) [x68; x69])
    = Some ([x2a] ++ frame [x68; x69]) /\
  forall (rx : Stream) (p rest : list byte),
    incoming rx = frame [x68; x69] ++ rest ->
    len [x68; x69] <= len p ->
    wtTransport.Read rx p =
      Some (Stream.set_incoming rx rest,
            [x68; x69] ++ skipn (List.length [x68; x69]) p, len [x68; x69], None).
Proof.
  apply (client_send_server_Read (list byte) (fun d => d)
           (mkState true (Some [x2a]) [] true []) [x2a] [x68; x69]).
  - reflexivity.
  - reflexivity.
  - vm_compute. discriminate.
Defined.

Lemma client_send_overflow_witness :
  exists fr : list byte,
    stream (send unit (fun _ => repeat x61 (Z.to_nat 65538))
              (mkState true (Some []) [] true []) tt) = Some ([] ++ fr) /\
    forall (rx : Stream) (p rest : list byte),
      incoming rx = fr ++ rest ->
      len (repeat x61 (Z.to_nat 65538)) mod 65536 <= len p ->
      wtTransport.Read rx p =
        Some (Stream.set_incoming rx
                (skipn (Z.to_nat (len (repeat x61 (Z.to_nat 65538)) mod 65536))
                   (repeat x61 (Z.to_nat 65538)) ++ rest),
              firstn (Z.to_nat (len (repeat x61 (Z.to_nat 65538)) mod 65536))
                (repeat x61 (Z.to_nat 65538))
                ++ skipn (Z.to_nat (len (repeat x61 (Z.to_nat 65538)) mod 65536)) p,
              len (repeat x61 (Z.to_nat 65538)) mod 65536, None).
Proof.
  apply (client_send_overflow unit (fun _ => repeat x61 (Z.to_nat 65538))
           (mkState true (Some []) [] true []) [] tt).
  - reflexivity.
  - reflexivity.
  - vm_compute. reflexivity.
Defined.

Lemma startReading_chunking_witness :
  startReading (list byte) (fun d => d) (mkState true None [] true [])
    ([x00] :: [[x02; x68]; [x69; x00; x00; x00]])
  = receive (list byte) (fun d => d) (mkState true None [] true [])
      (concat ([x00] :: [[x02; x68]; [x69; x00; x00; x00]])).
Proof.
  apply (startReading_chunking (list byte) (fun d => d)
           (mkState true None [] true []) [x00] [[x02; x68]; [x69; x00; x00; x00]]).
  reflexivity.
Defined.

Lemma server_Write_client_receives_witness :
  startReading (list byte) (fun d => d) (mkState true None [] true [[x31]])
    ([x00; x02; x68] :: [[x69; x00]; [x00; x00; x01; x21]])
  = Some (mkState true None [] true ([[x31]] ++ List.map (fun d => d) [[x68; x69]; []; [x21]])).
Proof.
  apply (server_Write_client_receives (list byte) (fun d => d)
           (mkStream [] [] 0 None) [[x68; x69]; []; [x21]]
           (mkState true None [] true [[x31]])
           [x00; x02; x68] [[x69; x00]; [x00; x00; x01; x21]]).
  - reflexivity.
  - repeat constructor; vm_compute; discriminate.
  - reflexivity.
  - reflexivity.
  - reflexivity.
  - reflexivity.
Defined.

End ClientInteropWitnesses.

(** ** WebSocket transport: a message larger than the buffer *)

Section WSOversize.

Import websocket wsTransport.

(** X11.  A text message longer than the buffer is not cut to fit: it is
    taken off the connection and dropped whole, [Read] returning the
    error "client message exceeded buffer size" with [n = 0] and the
    buffer untouched, so that the next [Read] starts at the message that
    follows.  A text message of exactly the length of the buffer is
    delivered. *)
Theorem ws_Read_oversize_dropped (skipped rest : Conn) (b p : list byte) :
  Forall nonText skipped ->
  wsTransport.Read (skipped ++ Message TextMessage b None :: rest) p =
    if len p <? len b
    then Some (rest, p, 0, Some ErrClientMessageExceeded)
    else Some (rest, b ++ skipn (List.length b) p, len b, None).
Proof.
  intros Hsk. rewrite ws_Read_skip, ws_Read_text by exact Hsk.
  destruct (Z.ltb_spec (len p) (len b)) as [|Hfit]; [reflexivity|].
  rewrite copy_fits by exact Hfit. reflexivity.
Qed.

Lemma ws_Read_oversize_dropped_witness :
  wsTransport.Read ([Message BinaryMessage [x01] None]
                    ++ Message TextMessage [x61; x62; x63] None
                       :: [Message TextMessage [x64] None]) [x00; x00]
  = if len [x00; x00] <? len [x61; x62; x63]
    then Some ([Message TextMessage [x64] None], [x00; x00], 0, Some ErrClientMessageExceeded)
    else Some ([Message TextMessage [x64] None],
               [x61; x62; x63] ++ skipn (List.length [x61; x62; x63]) [x00; x00],
               len [x61; x62; x63], None).
Proof.
  apply (ws_Read_oversize_dropped [Message BinaryMessage [x01] None]
           [Message TextMessage [x64] None] [x61; x62; x63] [x00; x00]).
  repeat constructor. vm_compute. discriminate.
Defined.

End WSOversize.

(** ** Auth tokens: from issue to validate *)

Section TokenLifecycle.

Import auth_token.

Lemma issue_inv (store store' : authTokenStore) (now : Z) (ip token : string)
    (rand rand' : list (nat -> nat)) :
  issue store now ip rand = Some (token, store', rand') ->
  token ≠ "" /\
  tokens (pruneLocked store now) !! token = None /\
  store' = mkStore (<[token := mkInfo (now + ttl store) ip]> (tokens (pruneLocked store now)))
                   (ttl store).
Proof.
  unfold issue. rewrite pruneLocked_ttl. intros H.
  destruct (issueLoop _ _ rand) as [[[t toks] r]|] eqn:E; [|discriminate].
  injection H as <- <- <-.
  pose proof (issueLoop_result (tokens (pruneLocked store now))
                (mkInfo (now + ttl store) ip) rand) as Hres.
  rewrite E in Hres. destruct Hres as [Hnone ->].
  split; [|auto].
  assert (Hlen : String.length t = 32%nat).
  { clear Hnone. revert E. induction rand as [|rnd rand IH]; [discriminate|].
    simpl. destruct (_ !! _); [exact IH|].
    intros [= <- _ _]. apply Generate_length. }
  intros ->. discriminate Hlen.
Qed.

(** X12.  A token that [issue] returned is accepted by [validate] at
    every time up to its expiry, [now + ttl], from the IP it was issued
    for, and from any IP when it was issued without one or the caller
    gives none. *)
Theorem issued_token_is_accepted (store store' : authTokenStore) (now now' : Z)
    (ip ip' token : string) (rand rand' : list (nat -> nat)) :
  issue store now ip rand = Some (token, store', rand') ->
  now' <= now + ttl store ->
  ip = "" \/ ip' = "" \/ ip = ip' ->
  fst (validate store' now' token ip') = true.
Proof.
  intros Hissue Hlive Hip.
  apply issue_inv in Hissue as (Hne & _ & ->).
  apply validate_true_iff. split; [exact Hne|].
  exists (mkInfo (now + ttl store) ip). cbn [tokens expiresAt auth_token.ip].
  rewrite lookup_insert_eq. repeat split; [|exact Hip].
  unfold After. apply Z.ltb_ge. lia.
Qed.

(** X13.  Once its expiry time has passed, a token that [issue]
    returned is refused by [validate] from every IP, and the call
    removes it from the store. *)
Theorem issued_token_expires (store store' : authTokenStore) (now now' : Z)
    (ip ip' token : string) (rand rand' : list (nat -> nat)) :
  issue store now ip rand = Some (token, store', rand') ->
  now + ttl store < now' ->
  fst (validate store' now' token ip') = false /\
  tokens (snd (validate store' now' token ip')) !! token = None.
Proof.
  intros Hissue Hdead.
  apply issue_inv in Hissue as (Hne & _ & ->).
  rewrite validate_nonempty by exact Hne. cbn [fst snd].
  assert (Hgone : tokens (pruneLocked
                    (mkStore (<[token := mkInfo (now + ttl store) ip]>
                                (tokens (pruneLocked store now))) (ttl store)) now')
                  !! token = None).
  { destruct (_ !! token) as [i|] eqn:E; [|reflexivity].
    apply pruneLocked_lookup in E as [E1 E2]. cbn [tokens] in E1.
    rewrite lookup_insert_eq in E1. injection E1 as <-.
    unfold After in E2. cbn [expiresAt] in E2. apply Z.ltb_ge in E2. lia. }
  rewrite Hgone. auto.
Qed.

(** X14.  A token issued for one IP is refused from another, and the
    refusal costs nothing: the entry stays in the store as it was, and
    the token is still accepted from its own IP afterwards. *)
Theorem wrong_ip_is_refused_token_kept (store store' : authTokenStore)
    (now now' now'' : Z) (ip ip' token : string) (rand rand' : list (nat -> nat)) :
  issue store now ip rand = Some (token, store', rand') ->
  ip ≠ "" -> ip' ≠ "" -> ip ≠ ip' ->
  now' <= now'' <= now + ttl store ->
  fst (validate store' now' token ip') = false /\
  tokens (snd (validate store' now' token ip')) !! token
    = Some (mkInfo (now + ttl store) ip) /\
  fst (validate (snd (validate store' now' token ip')) now'' token ip) = true.
Proof.
  intros Hissue H1 H2 H3 Htime.
  apply issue_inv in Hissue as (Hne & _ & ->).
  set (s1 := mkStore (<[token := mkInfo (now + ttl store) ip]>
                        (tokens (pruneLocked store now))) (ttl store)).
  assert (Hin : tokens (pruneLocked s1 now') !! token = Some (mkInfo (now + ttl store) ip)).
  { apply pruneLocked_lookup. unfold s1; cbn [tokens expiresAt].
    rewrite lookup_insert_eq. split; [reflexivity|].
    unfold After. apply Z.ltb_ge. lia. }
  rewrite (validate_nonempty s1) by exact Hne. cbn [fst snd]. rewrite Hin.
  cbn [auth_token.ip].
  rewrite (bool_decide_eq_true_2 _ H1), (bool_decide_eq_true_2 _ H2),
    (bool_decide_eq_true_2 _ H3).
  split; [reflexivity|]. split; [reflexivity|].
  apply validate_true_iff. split; [exact Hne|].
  exists (mkInfo (now + ttl store) ip). split; [exact Hin|].
  cbn [expiresAt auth_token.ip]. split; [|auto].
  unfold After. apply Z.ltb_ge. lia.
Qed.

(** X15.  Two tokens issued one after the other are different as long
    as the first has not expired when the second is issued, and both
    are then in the store, each with its own expiry and IP. *)
Theorem successive_tokens_differ (store s1 s2 : authTokenStore) (now1 now2 : Z)
    (ip1 ip2 t1 t2 : string) (rand r1 r2 : list (nat -> nat)) :
  issue store now1 ip1 rand = Some (t1, s1, r1) ->
  issue s1 now2 ip2 r1 = Some (t2, s2, r2) ->
  now2 <= now1 + ttl store ->
  t1 ≠ t2 /\
  tokens s2 !! t1 = Some (mkInfo (now1 + ttl store) ip1) /\
  tokens s2 !! t2 = Some (mkInfo (now2 + ttl store) ip2).
Proof.
  intros Hi1 Hi2 Hlive.
  apply issue_inv in Hi1 as (_ & _ & ->).
  apply issue_inv in Hi2 as (_ & Hnone & ->). cbn [ttl tokens] in *.
  set (s1 := mkStore (<[t1 := mkInfo (now1 + ttl store) ip1]>
                        (tokens (pruneLocked store now1))) (ttl store)) in *.
  assert (Hin : tokens (pruneLocked s1 now2) !! t1 = Some (mkInfo (now1 + ttl store) ip1)).
  { apply pruneLocked_lookup. unfold s1; cbn [tokens expiresAt].
    rewrite lookup_insert_eq. split; [reflexivity|].
    unfold After. apply Z.ltb_ge. lia. }
  assert (Hne : t1 ≠ t2) by congruence.
  split; [exact Hne|]. split.
  - rewrite lookup_insert_ne by congruence. exact Hin.
  - apply lookup_insert_eq.
Qed.

(** X16.  Pruning composes: pruning at one time and then at a later
    time leaves the store that pruning at the later time alone leaves.
    In particular pruning twice at the same time changes nothing the
    second time. *)
Theorem pruneLocked_later (store : authTokenStore) (now now' : Z) :
  now <= now' ->
  pruneLocked (pruneLocked store now) now' = pruneLocked store now'.
Proof.
  intros Hle. unfold pruneLocked at 1 3. cbn [ttl]. f_equal.
  apply map_eq. intros k. apply option_eq. intros info.
  rewrite map_lookup_filter_Some. cbn [snd].
  rewrite pruneLocked_lookup, map_lookup_filter_Some. cbn [snd].
  unfold After. rewrite !Z.ltb_ge. split; [tauto|].
  intros [H1 H2]. repeat split; auto. lia.
Qed.

(** X17.  [validate] does not use a token up: once it has accepted a
    token it accepts it again, from the same IP, at every later time up
    to the token's expiry. *)
Theorem validate_accepts_again (store : authTokenStore) (now now' : Z)
    (token ip : string) (info : authTokenInfo) :
  fst (validate store now token ip) = true ->
  tokens store !! token = Some info ->
  now <= now' <= expiresAt info ->
  fst (validate (snd (validate store now token ip)) now' token ip) = true.
Proof.
  intros Hok Hl Htime.
  apply validate_true_iff in Hok as [Hne (info' & Hl' & Hexp & Hip)].
  rewrite Hl in Hl'. injection Hl' as <-.
  rewrite (validate_nonempty store) by exact Hne. cbn [snd].
  apply validate_true_iff. split; [exact Hne|]. exists info.
  split; [apply pruneLocked_lookup; auto|]. split; [|exact Hip].
  unfold After. apply Z.ltb_ge. lia.
Qed.

End TokenLifecycle.

Section TokenLifecycleWitnesses.

Import auth_token.

Lemma issued_token_is_accepted_witness :
  let tok := "0123456789abcdefghijklmnopqrstuv" in
  let store' := mkStore (<[tok := mkInfo (50 + authTokenTTL) "10.0.0.1"]> ∅) authTokenTTL in
  fst (validate store' (50 + authTokenTTL) tok "10.0.0.1") = true.
Proof.
  cbv zeta.
  apply (issued_token_is_accepted (newAuthTokenStore authTokenTTL) _ 50 (50 + authTokenTTL)
           "10.0.0.1" "10.0.0.1" "0123456789abcdefghijklmnopqrstuv"
           [fun i : nat => i] []).
  - vm_compute. reflexivity.
  - vm_compute; first [reflexivity | discriminate].
  - right. right. reflexivity.
Defined.

Lemma issued_token_expires_witness :
  let tok := "0123456789abcdefghijklmnopqrstuv" in
  let store' := mkStore (<[tok := mkInfo (50 + authTokenTTL) "10.0.0.1"]> ∅) authTokenTTL in
  fst (validate store' (51 + authTokenTTL) tok "10.0.0.1") = false /\
  tokens (snd (validate store' (51 + authTokenTTL) tok "10.0.0.1")) !! tok = None.
Proof.
  cbv zeta.
  apply (issued_token_expires (newAuthTokenStore authTokenTTL) _ 50 (51 + authTokenTTL)
           "10.0.0.1" "10.0.0.1" "0123456789abcdefghijklmnopqrstuv"
           [fun i : nat => i] []).
  - vm_compute. reflexivity.
  - vm_compute; first [reflexivity | discriminate].
Defined.

Lemma wrong_ip_is_refused_token_kept_witness :
  let tok := "0123456789abcdefghijklmnopqrstuv" in
  let store' := mkStore (<[tok := mkInfo (50 + authTokenTTL) "10.0.0.1"]> ∅) authTokenTTL in
  fst (validate store' 60 tok "10.0.0.9") = false /\
  tokens (snd (validate store' 60 tok "10.0.0.9")) !! tok
    = Some (mkInfo (50 + ttl (newAuthTokenStore authTokenTTL)) "10.0.0.1") /\
  fst (validate (snd (validate store' 60 tok "10.0.0.9")) 70 tok "10.0.0.1") = true.
Proof.
  cbv zeta.
  apply (wrong_ip_is_refused_token_kept (newAuthTokenStore authTokenTTL) _ 50 60 70
           "10.0.0.1" "10.0.0.9" "0123456789abcdefghijklmnopqrstuv"
           [fun i : nat => i] []).
  - vm_compute. reflexivity.
  - discriminate.
  - discriminate.
  - discriminate.
  - vm_compute. split; discriminate.
Defined.

Lemma successive_tokens_differ_witness :
  let t1 := "0123456789abcdefghijklmnopqrstuv" in
  let t2 := "zyxwvutsrqponmlkjihgfedcba987654" in
  let s2 := mkStore (<[t2 := mkInfo (60 + authTokenTTL) ""]>
                       (<[t1 := mkInfo (50 + authTokenTTL) "10.0.0.1"]> ∅)) authTokenTTL in
  t1 ≠ t2 /\
  tokens s2 !! t1 = Some (mkInfo (50 + ttl (newAuthTokenStore authTokenTTL)) "10.0.0.1") /\
  tokens s2 !! t2 = Some (mkInfo (60 + ttl (newAuthTokenStore authTokenTTL)) "").
Proof.
  cbv zeta.
  apply (successive_tokens_differ (newAuthTokenStore authTokenTTL)
           (mkStore (<["0123456789abcdefghijklmnopqrstuv"
                        := mkInfo (50 + authTokenTTL) "10.0.0.1"]> ∅) authTokenTTL)
           _ 50 60 "10.0.0.1" "" _ _
           [(fun i : nat => i); (fun i : nat => 35 - i)%nat]
           [(fun i : nat => 35 - i)%nat] []).
  - vm_compute. reflexivity.
  - vm_compute. reflexivity.
  - vm_compute; first [reflexivity | discriminate].
Defined.

Lemma pruneLocked_later_witness :
  let store := mkStore (<["a" := mkInfo 10 ""]> (<["b" := mkInfo 30 ""]> ∅)) authTokenTTL in
  pruneLocked (pruneLocked store 5) 20 = pruneLocked store 20.
Proof.
  cbv zeta. apply pruneLocked_later. lia.
Defined.

Lemma validate_accepts_again_witness :
  let tok := "0123456789abcdefghijklmnopqrstuv" in
  let store := mkStore (<[tok := mkInfo 100 "10.0.0.1"]> ∅) authTokenTTL in
  fst (validate (snd (validate store 50 tok "10.0.0.1")) 100 tok "10.0.0.1") = true.
Proof.
  cbv zeta.
  apply (validate_accepts_again _ 50 100 _ _ (mkInfo 100 "10.0.0.1")).
  - vm_compute. reflexivity.
  - apply lookup_insert_eq.
  - vm_compute. split; discriminate.
Defined.

End TokenLifecycleWitnesses.

(** ** From issueAuthToken to validateAuthToken *)

Section ServerTokens.

Import auth_token.



End ServerTokens.

(** ** The shape of the forwarded client IP *)

Section ForwardedShape.

Import strings trimmedText auth_token.

Lemma Split_hd_free (s : string) (sep : ascii) :
  free sep (hd EmptyString (Split s sep)).
Proof.
  induction s as [|a s IH]; [reflexivity|].
  simpl. destruct (Ascii.eqb_spec a sep) as [->|Hne]; [reflexivity|].
  pose proof (Split_nonempty s sep).
  destruct (Split s sep) as [|x xs]; [contradiction|].
  simpl in *. apply free_cons. auto.
Qed.

Lemma TrimLeftSpace_free (c : ascii) (s : string) :
  free c s -> free c (TrimLeftSpace s).
Proof.
  induction s as [|a s IH]; intros Hf; [exact Hf|].
  simpl. destruct (isSpace a); [|exact Hf].
  apply free_cons in Hf as [_ Hf]. auto.
Qed.

Lemma TrimRightSpace_free (c : ascii) (s : string) :
  free c s -> free c (TrimRightSpace s).
Proof.
  induction s as [|a s IH]; intros Hf; [exact Hf|].
  apply free_cons in Hf as [Hne Hf]. specialize (IH Hf).
  simpl. destruct (TrimRightSpace s) as [|y t].
  - destruct (isSpace a); [reflexivity|]. apply free_cons. auto.
  - apply free_cons. auto.
Qed.

Lemma TrimLeftSpace_first (s : string) (a : ascii) :
  firstByte (TrimLeftSpace s) = Some a -> isSpace a = false.
Proof.
  induction s as [|x s IH]; [discriminate|].
  simpl. destruct (isSpace x) eqn:E; [exact IH|].
  intros [= <-]. exact E.
Qed.

Lemma TrimRightSpace_first (s : string) (a : ascii) :
  firstByte (TrimRightSpace s) = Some a -> firstByte s = Some a.
Proof.
  destruct s as [|x s]; [discriminate|].
  simpl. destruct (TrimRightSpace s); [destruct (isSpace x); [discriminate|]|]; auto.
Qed.

Lemma TrimRightSpace_last (s : string) (a : ascii) :
  lastByte (TrimRightSpace s) = Some a -> isSpace a = false.
Proof.
  induction s as [|x s IH]; [discriminate|].
  simpl. destruct (TrimRightSpace s) as [|y t].
  - destruct (isSpace x) eqn:E; [discriminate|]. intros [= <-]. exact E.
  - intros H. apply IH.
    change (lastByte (String x (String y t))) with
      (match lastByte (String y t) with Some b => Some b | None => Some x end) in H.
    destruct (lastByte (String y t)) as [b|] eqn:El; [exact H|].
    simpl in El. destruct (lastByte t); discriminate.
Qed.

Lemma TrimSpace_trimmed (s : string) : trimmed (TrimSpace s).
Proof.
  unfold TrimSpace. split; intros a Ha.
  - apply TrimRightSpace_first in Ha. exact (TrimLeftSpace_first s a Ha).
  - exact (TrimRightSpace_last _ a Ha).
Qed.



End ForwardedShape.

(** ** sameOrigin and ports *)

Section OriginPorts.

Import strings origin.



End OriginPorts.
